(** * nuclide-rpc: the proxy factory cache of [lib/main.js]

    A shallow embedding of [pkg/nuclide-rpc/lib/main.js]: the two
    process-wide caches ([definitionsCache], [proxiesCache]) and the
    functions [getDefinitions], [loadDefinitions], [getProxy],
    [createProxyFactory], [loadCodeAsModule] and [resolvePath].

    JavaScript is modelled with explicit state passing.  A call either
    returns or throws, and in both cases leaves a store behind, so a
    computation is a function [State -> Result A * State].  Objects whose
    identity matters (the parsed Definitions, the exports of a loaded
    module, the objects a factory returns) carry the address at which they
    were allocated; two references are identical exactly when the addresses
    agree.  Every call that leaves [main.js] (parser, generator, the module
    loader, the [inject] export, the application of a factory) is recorded
    in a trace, in call order. *)

From Stdlib Require Import Ascii String.
From stdpp Require Import gmap strings list fin_maps.

Open Scope string_scope.
Open Scope list_scope.

(** ** Thrown values and outcomes *)

Inductive Exn : Type :=
| AssertionError            (* thrown by [invariant(...)] of 'assert' *)
| Raised (msg : string).    (* thrown by a collaborator *)

Inductive Result (A : Type) : Type :=
| Returns (a : A)
| Throws (e : Exn).

Arguments Returns {A} a.
Arguments Throws {A} e.

Definition returned {A : Type} (r : Result A) : option A :=
  match r with
  | Returns a => Some a
  | Throws _ => None
  end.

(** ** Node's [Module] objects, as far as [loadCodeAsModule] touches them

    [new Module()] leaves [id] undefined, [filename] null and [paths]
    unset; [None] stands for these. *)

Record Module : Type := mkModule {
  m_id : option string;
  m_filename : option string;
  m_paths : option (list string)
}.

Definition new_Module : Module :=
  {| m_id := None; m_filename := None; m_paths := None |}.

(** *** How Node resolves a request made in a module

    [require(request)] in code run by [m._compile] goes through
    [Module._resolveFilename(request, m)] of Node's [lib/module.js]
    (its path cache aside): a builtin name resolves to itself; an absolute
    request is looked for as it is; a request that starts with [./] or [..]
    is looked for in the directory of [m.filename]; every other request is
    looked for in [m.paths] followed by the global directories
    ([NODE_PATH], [$HOME/.node_modules], ...), an unset [m.paths] counting
    as empty.  What the process looks like is outside [main.js]. *)







(** ** Collaborators outside [main.js]

    What [main.js] imports and calls: Node's module resolution and loader,
    [./service-parser], [./proxy-generator], [nuclide-remote-uri], and the
    code the generator emits.  The payload of a parsed definition file
    ([Definitions] of [lib/types]), a connection's marshaling context
    ([RpcContext]) and what a generated factory builds for a context are
    opaque to [main.js]. *)

Inductive Value (RpcContext : Type) : Type :=
| VContext (c : RpcContext)
| VObservable                 (* [Rx.Observable] *)
| VTrackOperationTiming.      (* [trackOperationTiming] *)

Arguments VContext {RpcContext} c.
Arguments VObservable {RpcContext}.
Arguments VTrackOperationTiming {RpcContext}.

Class Collaborators : Type := {
  DefinitionsBody : Type;
  RpcContext : Type;
  Surface : Type;
  (** [Module._resolveFilename(definitionPath, module.parent ? ... )],
      on the files currently on disk. *)
  resolveFilename : gmap string string -> string -> Result string;
  (** [parseServiceDefinition(fileName, source)] of [./service-parser]. *)
  parseServiceDefinition : string -> string -> Result DefinitionsBody;
  (** [generateProxy(serviceName, preserveFunctionNames, defs)]. *)
  generateProxy : string -> bool -> DefinitionsBody -> Result string;
  (** [nuclideUri.parsePath(p).name] and [nuclideUri.join(__dirname, f)]. *)
  parsePathName : string -> string;
  joinDirname : string -> string;
  (** [m._compile(code, filename)]: runs the code in module [m]. *)
  compileCode : Module -> string -> string -> Result unit;
  (** Calling the [inject] export of the module compiled from [code]. *)
  injectCode : string -> list (Value RpcContext) -> Result unit;
  (** Calling the exports of the module compiled from [code], whose
      [inject] has stored [injected], on a context. *)
  applyCode :
    string -> option (list (Value RpcContext)) -> RpcContext -> Result Surface
}.

Section Rpc.

Context {C : Collaborators}.

(** A parsed definition file: the object the parser returned. *)
Record Definitions : Type := mkDefinitions {
  def_addr : nat;
  def_body : DefinitionsBody
}.

(** [m.exports] of a loaded proxy module: the function object the
    generated code assigned to [module.exports], the code it closes over
    and what its [inject] export has stored in the module so far. *)
Record ProxyFactory : Type := mkProxyFactory {
  fac_addr : nat;
  fac_code : string;
  fac_filename : string;
  fac_injected : option (list (Value RpcContext))
}.

(** The object a factory application returns. *)
Record Proxy : Type := mkProxy {
  proxy_addr : nat;
  proxy_factory : nat;
  proxy_context : RpcContext;
  proxy_surface : Surface
}.

(** Calls that leave [main.js].  [EvParse] also names the
    [definitionPath] on whose behalf [loadDefinitions] ran and the
    address of the object the parser returned ([None]: it threw). *)
Inductive Event : Type :=
| EvParse (definitionPath resolvedPath source : string) (out : option nat)
| EvGenerate (serviceName : string) (preserveFunctionNames : bool)
             (defs : Definitions)
| EvCompile (m : Module) (code filename : string)
| EvInject (factory : nat) (args : list (Value RpcContext))
| EvApply (factory : nat) (args : list (Value RpcContext)).

Record State : Type := mkState {
  files : gmap string string;
  definitionsCache : gmap string Definitions;
  proxiesCache : gmap string ProxyFactory;
  next_addr : nat;
  trace : list Event
}.

(** ** State and exceptions *)

Definition M (A : Type) : Type := State -> Result A * State.

Definition ret {A : Type} (a : A) : M A := fun s => (Returns a, s).

Definition throw {A : Type} (e : Exn) : M A := fun s => (Throws e, s).

Definition bind {A B : Type} (c : M A) (k : A -> M B) : M B :=
  fun s =>
    match c s with
    | (Returns a, s') => k a s'
    | (Throws e, s') => (Throws e, s')
    end.

Notation "'perform' x <- c 'in' k" := (bind c (fun x => k))
  (at level 10, x name, c at level 100, k at level 200).

Definition lift {A : Type} (r : Result A) : M A := fun s => (r, s).

Definition log (e : Event) : M unit :=
  fun s => (Returns tt,
            {| files := files s;
               definitionsCache := definitionsCache s;
               proxiesCache := proxiesCache s;
               next_addr := next_addr s;
               trace := trace s ++ [e] |}).

(** Allocation of a new object. *)
Definition alloc : M nat :=
  fun s => (Returns (next_addr s),
            {| files := files s;
               definitionsCache := definitionsCache s;
               proxiesCache := proxiesCache s;
               next_addr := S (next_addr s);
               trace := trace s |}).

(** [invariant(x != null); ... x ...] of 'assert': past the assertion
    the value is there. *)
Definition invariant_nonNull {A : Type} (x : option A) : M A :=
  match x with
  | Some a => ret a
  | None => throw AssertionError
  end.

(** [fs.readFileSync(path, 'utf8')]. *)
Definition readFileSync (path : string) : M string :=
  fun s =>
    match files s !! path with
    | Some text => (Returns text, s)
    | None => (Throws (Raised "ENOENT"), s)
    end.

(** The [Map] operations on the two caches. *)
Definition definitionsCache_has (k : string) : M bool :=
  fun s => (Returns (bool_decide (is_Some (definitionsCache s !! k))), s).

Definition definitionsCache_get (k : string) : M (option Definitions) :=
  fun s => (Returns (definitionsCache s !! k), s).

Definition definitionsCache_set (k : string) (d : Definitions) : M unit :=
  fun s => (Returns tt,
            {| files := files s;
               definitionsCache := <[k := d]> (definitionsCache s);
               proxiesCache := proxiesCache s;
               next_addr := next_addr s;
               trace := trace s |}).

Definition proxiesCache_has (k : string) : M bool :=
  fun s => (Returns (bool_decide (is_Some (proxiesCache s !! k))), s).

Definition proxiesCache_get (k : string) : M (option ProxyFactory) :=
  fun s => (Returns (proxiesCache s !! k), s).

Definition proxiesCache_set (k : string) (f : ProxyFactory) : M unit :=
  fun s => (Returns tt,
            {| files := files s;
               definitionsCache := definitionsCache s;
               proxiesCache := <[k := f]> (proxiesCache s);
               next_addr := next_addr s;
               trace := trace s |}).

(** ** The functions of [main.js] *)

Definition resolvePath (definitionPath : string) : M string :=
  fun s => (resolveFilename (files s) definitionPath, s).

(** The parser call of [loadDefinitions]: a definition that is returned
    is a new object. *)
Definition callParser (definitionPath resolvedPath source : string)
    : M Definitions :=
  match parseServiceDefinition resolvedPath source with
  | Returns body =>
      perform a <- alloc in
      perform _ <- log (EvParse definitionPath resolvedPath source (Some a)) in
      ret {| def_addr := a; def_body := body |}
  | Throws e =>
      perform _ <- log (EvParse definitionPath resolvedPath source None) in
      throw e
  end.

Definition loadDefinitions (definitionPath : string) : M Definitions :=
  perform resolvedPath <- resolvePath definitionPath in
  perform source <- readFileSync resolvedPath in
  callParser definitionPath resolvedPath source.

Definition getDefinitions (definitionPath : string) : M Definitions :=
  perform has <- definitionsCache_has definitionPath in
  perform _ <-
    (if negb has then
       perform d <- loadDefinitions definitionPath in
       definitionsCache_set definitionPath d
     else ret tt) in
  perform result <- definitionsCache_get definitionPath in
  perform result <- invariant_nonNull result in
  ret result.

(** A module after [_compile]: the module object and its [exports]. *)
Record LoadedModule : Type := mkLoadedModule {
  lm_module : Module;
  m_exports : ProxyFactory
}.

Definition loadCodeAsModule (code filename : string) : M LoadedModule :=
  let m := new_Module in
  let m := {| m_id := Some (joinDirname filename);
              m_filename := Some (joinDirname filename);
              m_paths := m_paths m |} in
  let m := {| m_id := m_id m;
              m_filename := m_filename m;
              m_paths := Some [] |} in
  perform _ <- log (EvCompile m code filename) in
  perform _ <- lift (compileCode m code filename) in
  perform a <- alloc in
  ret {| lm_module := m;
         m_exports := {| fac_addr := a; fac_code := code;
                         fac_filename := filename;
                         fac_injected := None |} |}.

(** [exports.inject(...)]: the module keeps what it is handed. *)
Definition inject (f : ProxyFactory) (args : list (Value RpcContext))
    : M ProxyFactory :=
  perform _ <- log (EvInject (fac_addr f) args) in
  perform _ <- lift (injectCode (fac_code f) args) in
  ret {| fac_addr := fac_addr f; fac_code := fac_code f;
         fac_filename := fac_filename f;
         fac_injected := Some args |}.

Definition createProxyFactory (serviceName : string)
    (preserveFunctionNames : bool) (definitionPath : string)
    : M ProxyFactory :=
  perform defs <- getDefinitions definitionPath in
  perform _ <- log (EvGenerate serviceName preserveFunctionNames defs) in
  perform code <-
    lift (generateProxy serviceName preserveFunctionNames (def_body defs)) in
  let filename := parsePathName definitionPath +:+ "Proxy.js" in
  perform m <- loadCodeAsModule code filename in
  perform exports <-
    inject (m_exports m) [VObservable; VTrackOperationTiming] in
  ret exports.

(** Modelled from the spec: the body of the factory the generator emits
    ([./proxy-generator] is not among the sources).  A Factory is "a pure
    function RpcContext -> bound proxy object", "applied independently to
    many contexts", and two applications "yield independent bound
    objects": an application that returns yields a new object, bound to
    the context it was given. *)
Definition runFactory (factory : ProxyFactory) (clientObject : RpcContext)
    : M Proxy :=
  perform surface <-
    lift (applyCode (fac_code factory) (fac_injected factory) clientObject) in
  perform a <- alloc in
  ret {| proxy_addr := a; proxy_factory := fac_addr factory;
         proxy_context := clientObject; proxy_surface := surface |}.

(** [factory(clientObject)]: the exports of the loaded module, called on
    the context and on nothing else. *)
Definition applyFactory (factory : ProxyFactory) (clientObject : RpcContext)
    : M Proxy :=
  perform _ <- log (EvApply (fac_addr factory) [VContext clientObject]) in
  runFactory factory clientObject.

Definition getProxy (serviceName definitionPath : string)
    (clientObject : RpcContext) : M Proxy :=
  perform has <- proxiesCache_has definitionPath in
  perform _ <-
    (if negb has then
       perform f <- createProxyFactory serviceName false definitionPath in
       proxiesCache_set definitionPath f
     else ret tt) in
  perform factory <- proxiesCache_get definitionPath in
  perform factory <- invariant_nonNull factory in
  applyFactory factory clientObject.

(** ** Clients

    The module exports [getDefinitions], [getProxy] and
    [createProxyFactory]; a client calls them in any order with any
    arguments, and between calls the files on disk may change.  (The
    [__test__] export, which hands the two maps to the tests, is left
    out.) *)

Inductive Op : Type :=
| CallGetDefinitions (definitionPath : string)
| CallGetProxy (serviceName definitionPath : string)
               (clientObject : RpcContext)
| CallCreateProxyFactory (serviceName : string)
                         (preserveFunctionNames : bool)
                         (definitionPath : string)
| FilesChange (disk : gmap string string).

Definition setFiles (disk : gmap string string) (s : State) : State :=
  {| files := disk;
     definitionsCache := definitionsCache s;
     proxiesCache := proxiesCache s;
     next_addr := next_addr s;
     trace := trace s |}.

Definition step (s : State) (o : Op) : State :=
  match o with
  | CallGetDefinitions p => (getDefinitions p s).2
  | CallGetProxy n p c => (getProxy n p c s).2
  | CallCreateProxyFactory n b p => (createProxyFactory n b p s).2
  | FilesChange disk => setFiles disk s
  end.

Definition client_run (ops : list Op) (s : State) : State :=
  fold_left step ops s.

(** The store when the module has just been loaded. *)
Definition initial (disk : gmap string string) : State :=
  {| files := disk;
     definitionsCache := ∅;
     proxiesCache := ∅;
     next_addr := 0;
     trace := [] |}.

(** ** Reading stores and traces *)

(** [n] objects were allocated and [evs] logged. *)
Definition advance (n : nat) (evs : list Event) (s : State) : State :=
  {| files := files s;
     definitionsCache := definitionsCache s;
     proxiesCache := proxiesCache s;
     next_addr := n + next_addr s;
     trace := trace s ++ evs |}.

Definition withDefinitions (k : string) (d : Definitions) (s : State)
    : State :=
  (definitionsCache_set k d s).2.

Definition withProxy (k : string) (f : ProxyFactory) (s : State) : State :=
  (proxiesCache_set k f s).2.

Fixpoint countEvents (p : Event -> bool) (tr : list Event) : nat :=
  match tr with
  | [] => 0
  | e :: rest => (if p e then 1 else 0) + countEvents p rest
  end.

(** A run of the parser on behalf of [definitionPath]. *)
Definition isParserCall (definitionPath : string) (e : Event) : bool :=
  match e with
  | EvParse p _ _ _ => bool_decide (p = definitionPath)
  | _ => false
  end.

(** A run of the parser on behalf of [definitionPath] that returned. *)
Definition isParserReturn (definitionPath : string) (e : Event) : bool :=
  match e with
  | EvParse p _ _ (Some _) => bool_decide (p = definitionPath)
  | _ => false
  end.

Definition parserCalls (definitionPath : string) (tr : list Event) : nat :=
  countEvents (isParserCall definitionPath) tr.

Definition parserReturns (definitionPath : string) (tr : list Event) : nat :=
  countEvents (isParserReturn definitionPath) tr.

Definition isGenerate (e : Event) : bool :=
  match e with EvGenerate _ _ _ => true | _ => false end.

Definition isCompile (e : Event) : bool :=
  match e with EvCompile _ _ _ => true | _ => false end.

Definition isObservable (v : Value RpcContext) : bool :=
  match v with VObservable => true | _ => false end.

Definition isTrackOperationTiming (v : Value RpcContext) : bool :=
  match v with VTrackOperationTiming => true | _ => false end.

(** An application of a factory that is handed the stream builder and
    the timing wrapper among its arguments. *)
Definition passesInstrumentation (e : Event) : bool :=
  match e with
  | EvApply _ args =>
      existsb isObservable args && existsb isTrackOperationTiming args
  | _ => true
  end.

(** The file names handed to the loader, in call order. *)
Fixpoint compiledFilenames (tr : list Event) : list string :=
  match tr with
  | [] => []
  | EvCompile _ _ filename :: rest => filename :: compiledFilenames rest
  | _ :: rest => compiledFilenames rest
  end.

(** The module that [loadCodeAsModule] hands to [_compile]. *)
Definition proxyModule (filename : string) : Module :=
  {| m_id := Some (joinDirname filename);
     m_filename := Some (joinDirname filename);
     m_paths := Some [] |}.

(** The file name [createProxyFactory] gives the generated module. *)
Definition proxyFilename (definitionPath : string) : string :=
  parsePathName definitionPath +:+ "Proxy.js".

End Rpc.

(** ** Outcomes of the three exported functions, read off the code

    Each relation lists the ways a call can end from store [s]: the result
    and the store it leaves. *)

Section Outcomes.

Context {C : Collaborators}.

Inductive DefinitionsOutcome (definitionPath : string) (s : State)
    : Result Definitions -> State -> Prop :=
| DefsCached d :
    definitionsCache s !! definitionPath = Some d ->
    DefinitionsOutcome definitionPath s (Returns d) s
| DefsUnresolved e :
    definitionsCache s !! definitionPath = None ->
    resolveFilename (files s) definitionPath = Throws e ->
    DefinitionsOutcome definitionPath s (Throws e) s
| DefsUnreadable resolvedPath :
    definitionsCache s !! definitionPath = None ->
    resolveFilename (files s) definitionPath = Returns resolvedPath ->
    files s !! resolvedPath = None ->
    DefinitionsOutcome definitionPath s (Throws (Raised "ENOENT")) s
| DefsRejected resolvedPath source e :
    definitionsCache s !! definitionPath = None ->
    resolveFilename (files s) definitionPath = Returns resolvedPath ->
    files s !! resolvedPath = Some source ->
    parseServiceDefinition resolvedPath source = Throws e ->
    DefinitionsOutcome definitionPath s (Throws e)
      (advance 0 [EvParse definitionPath resolvedPath source None] s)
| DefsParsed resolvedPath source body :
    definitionsCache s !! definitionPath = None ->
    resolveFilename (files s) definitionPath = Returns resolvedPath ->
    files s !! resolvedPath = Some source ->
    parseServiceDefinition resolvedPath source = Returns body ->
    let d := {| def_addr := next_addr s; def_body := body |} in
    DefinitionsOutcome definitionPath s (Returns d)
      (withDefinitions definitionPath d
         (advance 1 [EvParse definitionPath resolvedPath source
                       (Some (next_addr s))] s)).

(** What [createProxyFactory] does once [getDefinitions] has returned
    [defs], leaving store [s]. *)
Inductive BuildOutcome (serviceName : string) (preserveFunctionNames : bool)
    (definitionPath : string) (defs : Definitions) (s : State)
    : Result ProxyFactory -> State -> Prop :=
| BuildUngenerated e :
    generateProxy serviceName preserveFunctionNames (def_body defs)
      = Throws e ->
    BuildOutcome serviceName preserveFunctionNames definitionPath defs s
      (Throws e)
      (advance 0 [EvGenerate serviceName preserveFunctionNames defs] s)
| BuildUnloaded code e :
    generateProxy serviceName preserveFunctionNames (def_body defs)
      = Returns code ->
    let filename := proxyFilename definitionPath in
    compileCode (proxyModule filename) code filename = Throws e ->
    BuildOutcome serviceName preserveFunctionNames definitionPath defs s
      (Throws e)
      (advance 0 [EvGenerate serviceName preserveFunctionNames defs;
                  EvCompile (proxyModule filename) code filename] s)
| BuildUninjected code e :
    generateProxy serviceName preserveFunctionNames (def_body defs)
      = Returns code ->
    let filename := proxyFilename definitionPath in
    compileCode (proxyModule filename) code filename = Returns tt ->
    injectCode code [VObservable; VTrackOperationTiming] = Throws e ->
    BuildOutcome serviceName preserveFunctionNames definitionPath defs s
      (Throws e)
      (advance 1 [EvGenerate serviceName preserveFunctionNames defs;
                  EvCompile (proxyModule filename) code filename;
                  EvInject (next_addr s)
                    [VObservable; VTrackOperationTiming]] s)
| BuildDone code :
    generateProxy serviceName preserveFunctionNames (def_body defs)
      = Returns code ->
    let filename := proxyFilename definitionPath in
    compileCode (proxyModule filename) code filename = Returns tt ->
    injectCode code [VObservable; VTrackOperationTiming] = Returns tt ->
    BuildOutcome serviceName preserveFunctionNames definitionPath defs s
      (Returns {| fac_addr := next_addr s; fac_code := code;
                  fac_filename := filename;
                  fac_injected :=
                    Some [VObservable; VTrackOperationTiming] |})
      (advance 1 [EvGenerate serviceName preserveFunctionNames defs;
                  EvCompile (proxyModule filename) code filename;
                  EvInject (next_addr s)
                    [VObservable; VTrackOperationTiming]] s).

Inductive FactoryOutcome (serviceName : string)
    (preserveFunctionNames : bool) (definitionPath : string) (s : State)
    : Result ProxyFactory -> State -> Prop :=
| FactoryNoDefinitions e s0 :
    DefinitionsOutcome definitionPath s (Throws e) s0 ->
    FactoryOutcome serviceName preserveFunctionNames definitionPath s
      (Throws e) s0
| FactoryBuilt defs s0 r s1 :
    DefinitionsOutcome definitionPath s (Returns defs) s0 ->
    BuildOutcome serviceName preserveFunctionNames definitionPath defs s0
      r s1 ->
    FactoryOutcome serviceName preserveFunctionNames definitionPath s r s1.

(** [factory(clientObject)] from store [s]. *)
Inductive ApplyOutcome (factory : ProxyFactory) (clientObject : RpcContext)
    (s : State) : Result Proxy -> State -> Prop :=
| ApplyThrew e :
    applyCode (fac_code factory) (fac_injected factory) clientObject
      = Throws e ->
    ApplyOutcome factory clientObject s (Throws e)
      (advance 0 [EvApply (fac_addr factory) [VContext clientObject]] s)
| ApplyReturned surface :
    applyCode (fac_code factory) (fac_injected factory) clientObject
      = Returns surface ->
    ApplyOutcome factory clientObject s
      (Returns {| proxy_addr := next_addr s;
                  proxy_factory := fac_addr factory;
                  proxy_context := clientObject;
                  proxy_surface := surface |})
      (advance 1 [EvApply (fac_addr factory) [VContext clientObject]] s).

Inductive ProxyOutcome (serviceName definitionPath : string)
    (clientObject : RpcContext) (s : State)
    : Result Proxy -> State -> Prop :=
| ProxyHit f r s1 :
    proxiesCache s !! definitionPath = Some f ->
    ApplyOutcome f clientObject s r s1 ->
    ProxyOutcome serviceName definitionPath clientObject s r s1
| ProxyNoFactory e s1 :
    proxiesCache s !! definitionPath = None ->
    FactoryOutcome serviceName false definitionPath s (Throws e) s1 ->
    ProxyOutcome serviceName definitionPath clientObject s (Throws e) s1
| ProxyMiss f s1 r s2 :
    proxiesCache s !! definitionPath = None ->
    FactoryOutcome serviceName false definitionPath s (Returns f) s1 ->
    ApplyOutcome f clientObject (withProxy definitionPath f s1) r s2 ->
    ProxyOutcome serviceName definitionPath clientObject s r s2.

(** ** What holds of every store a client can reach *)

Definition isParse (e : Event) : bool :=
  match e with EvParse _ _ _ _ => true | _ => false end.

Definition injectedArgs : list (Value RpcContext) :=
  [VObservable; VTrackOperationTiming].

Record Inv (s : State) : Prop := mkInv {
  inv_defs_addr : forall p d,
    definitionsCache s !! p = Some d -> def_addr d < next_addr s;
  inv_fac_addr : forall p f,
    proxiesCache s !! p = Some f -> fac_addr f < next_addr s;
  inv_parsed : forall p,
    parserReturns p (trace s) =
      match definitionsCache s !! p with Some _ => 1 | None => 0 end;
  inv_factory : forall p f,
    proxiesCache s !! p = Some f ->
    exists n d,
      definitionsCache s !! p = Some d
      /\ generateProxy n false (def_body d) = Returns (fac_code f)
      /\ fac_injected f = Some injectedArgs
      /\ fac_filename f = proxyFilename p
}.

(** Stores only grow: entries stay, addresses are never reused, the
    trace is extended. *)
Record Extends (s s' : State) : Prop := mkExtends {
  ext_defs : forall p d,
    definitionsCache s !! p = Some d -> definitionsCache s' !! p = Some d;
  ext_proxies : forall p f,
    proxiesCache s !! p = Some f -> proxiesCache s' !! p = Some f;
  ext_next : next_addr s <= next_addr s';
  ext_trace : exists evs, trace s' = trace s ++ evs
}.

(** A call for [definitionPath] leaves the files and every entry under
    another key alone. *)
Record Frame (definitionPath : string) (s s' : State) : Prop := mkFrame {
  frame_files : files s' = files s;
  frame_defs : forall k,
    k <> definitionPath -> definitionsCache s' !! k = definitionsCache s !! k;
  frame_proxies : forall k,
    k <> definitionPath -> proxiesCache s' !! k = proxiesCache s !! k
}.

Definition silent (evs : list Event) : Prop :=
  Forall (fun e => isParse e = false) evs.

(** A call of [_compile] made the way [loadCodeAsModule] makes it. *)
Definition loadedByLoader (e : Event) : Prop :=
  match e with
  | EvCompile m _ filename => m = proxyModule filename
  | _ => True
  end.

(** Two stores that differ at most in the entries under keys other than
    [definitionPath] (and in their past). *)
Record SameAt (definitionPath : string) (s t : State) : Prop := mkSameAt {
  same_files : files s = files t;
  same_next : next_addr s = next_addr t;
  same_defs :
    definitionsCache s !! definitionPath
      = definitionsCache t !! definitionPath;
  same_proxies :
    proxiesCache s !! definitionPath = proxiesCache t !! definitionPath
}.

(** The calls [createProxyFactory(serviceName, preserveFunctionNames,
    definitionPath)] can make, and with what arguments. *)
Definition buildEvent (serviceName : string) (preserveFunctionNames : bool)
    (definitionPath : string) (e : Event) : Prop :=
  match e with
  | EvParse p _ _ _ => p = definitionPath
  | EvGenerate n b _ => n = serviceName /\ b = preserveFunctionNames
  | EvCompile m _ filename =>
      filename = proxyFilename definitionPath /\ m = proxyModule filename
  | EvInject _ args => args = injectedArgs
  | EvApply _ _ => False
  end.

(** The calls [getProxy(serviceName, definitionPath, clientObject)] can
    make. *)
Definition proxyEvent (serviceName definitionPath : string)
    (clientObject : RpcContext) (e : Event) : Prop :=
  match e with
  | EvApply _ args => args = [VContext clientObject]
  | _ => buildEvent serviceName false definitionPath e
  end.

End Outcomes.

(** ** Where the cached objects come from *)

Section Provenance.

Context {C : Collaborators}.

(** A call of the [inject] export of the module whose exports live at
    address [a]. *)
Definition isInjectOf (a : nat) (e : Event) : bool :=
  match e with
  | EvInject f _ => bool_decide (f = a)
  | _ => false
  end.

Definition injections (a : nat) (tr : list Event) : nat :=
  countEvents (isInjectOf a) tr.

(** Every cached object was made by the collaborator it belongs to, once,
    and is held under one key. *)
Record Sound (s : State) : Prop := mkSound {
  snd_parsed : forall p d,
    definitionsCache s !! p = Some d ->
    exists rp src,
      EvParse p rp src (Some (def_addr d)) ∈ trace s
      /\ parseServiceDefinition rp src = Returns (def_body d);
  snd_defs_unique : forall p q d e,
    definitionsCache s !! p = Some d -> definitionsCache s !! q = Some e ->
    def_addr d = def_addr e -> p = q;
  snd_fac_unique : forall p q f g,
    proxiesCache s !! p = Some f -> proxiesCache s !! q = Some g ->
    fac_addr f = fac_addr g -> p = q;
  snd_disjoint : forall p q d f,
    definitionsCache s !! p = Some d -> proxiesCache s !! q = Some f ->
    def_addr d <> fac_addr f;
  snd_inject_fresh : forall a,
    next_addr s <= a -> injections a (trace s) = 0;
  snd_inject_once : forall p f,
    proxiesCache s !! p = Some f -> injections (fac_addr f) (trace s) = 1;
  snd_loaded : forall p f,
    proxiesCache s !! p = Some f ->
    compileCode (proxyModule (proxyFilename p)) (fac_code f) (proxyFilename p)
      = Returns tt
    /\ injectCode (fac_code f) injectedArgs = Returns tt
}.

End Provenance.

(** ** A small world to run the code in

    Stand-ins for the collaborators, used to evaluate the functions above at
    concrete inputs: definition payloads are the source text itself,
    contexts are connection numbers, and a factory applied to a context
    yields the code it was compiled from. *)

Module Demo.

Fixpoint hasChar (c : Ascii.ascii) (s : string) : bool :=
  match s with
  | EmptyString => false
  | String c' rest => if Ascii.eqb c c' then true else hasChar c rest
  end.

(** The part after the last slash. *)
Fixpoint basename (s : string) : string :=
  match s with
  | EmptyString => EmptyString
  | String _ rest => if hasChar "/" s then basename rest else s
  end.

Fixpoint dropLastDot (s : string) : string :=
  match s with
  | EmptyString => EmptyString
  | String c rest =>
      if Ascii.eqb c "." && negb (hasChar "." rest) then EmptyString
      else String c (dropLastDot rest)
  end.

(** [path.parse(p).name] of Node for a POSIX path without trailing
    slash: the base name without its last extension (a leading dot does
    not start an extension). *)
Definition stem (p : string) : string :=
  match basename p with
  | EmptyString => EmptyString
  | String c rest => String c (dropLastDot rest)
  end.

(** Resolution relative to the caller: a leading [./] is dropped, and the
    file has to exist. *)
Definition resolve (disk : gmap string string) (p : string)
    : Result string :=
  let target :=
    match p with
    | String "." (String "/" rest) => rest
    | _ => p
    end in
  match disk !! target with
  | Some _ => Returns target
  | None => Throws (Raised "Cannot find module")
  end.

(** The parser accepts sources that contain no [!]. *)
Definition parse (fileName source : string) : Result string :=
  if hasChar "!" source then Throws (Raised "DefinitionParseError")
  else Returns source.

(** The generator has no rule for sources that contain [#]. *)
Definition generate (serviceName : string) (preserveFunctionNames : bool)
    (body : string) : Result string :=
  if hasChar "#" body then Throws (Raised "UnsupportedTypeError")
  else Returns (serviceName +:+ ":" +:+ body).

Definition world : Collaborators := {|
  DefinitionsBody := string;
  RpcContext := nat;
  Surface := string;
  resolveFilename := resolve;
  parseServiceDefinition := parse;
  generateProxy := generate;
  parsePathName := stem;
  joinDirname := fun f => "/nuclide/pkg/nuclide-rpc/lib/" +:+ f;
  compileCode := fun _ _ _ => Returns tt;
  injectCode := fun _ _ => Returns tt;
  applyCode := fun code _ _ => Returns code
|}.

Definition parsed (addr : nat) (body : string) : @Definitions world :=
  @mkDefinitions world addr body.

Definition loaded (addr : nat) (code filename : string)
    : @ProxyFactory world :=
  @mkProxyFactory world addr code filename
    (Some [VObservable; VTrackOperationTiming]).

Definition bound (addr factory context : nat) (surface : string)
    : @Proxy world :=
  @mkProxy world addr factory context surface.

(** A disk with one definition file, and the same disk after the file
    was edited. *)
Definition disk : gmap string string :=
  {[ "FooService.js" := "export function f(x: number): Promise<number>" ]}.

Definition diskEdited : gmap string string :=
  {[ "FooService.js" := "export function g(): Promise<void>" ]}.

(** Two files with the same text. *)
Definition diskTwo : gmap string string :=
  {[ "a/FooService.js" := "export function f(): void";
     "b/Other.js" := "export function f(): void" ]}.

(** A file the parser accepts and the generator rejects, and a file the
    parser rejects. *)
Definition diskUnsupported : gmap string string :=
  {[ "BarService.js" := "export function h(x: #): void" ]}.

Definition diskMalformed : gmap string string :=
  {[ "FooService.js" := "export !" ]}.

End Demo.
(** The same world with generated code that fails on connection 0. *)

Module Flaky.

Definition applyOrFail (code : string) (injected : option (list (Value nat)))
    (context : nat) : Result string :=
  match context with
  | 0 => Throws (Raised "TypeError")
  | _ => Returns code
  end.

Definition world : Collaborators := {|
  DefinitionsBody := string;
  RpcContext := nat;
  Surface := string;
  resolveFilename := Demo.resolve;
  parseServiceDefinition := Demo.parse;
  generateProxy := Demo.generate;
  parsePathName := Demo.stem;
  joinDirname := fun f => "/nuclide/pkg/nuclide-rpc/lib/" +:+ f;
  compileCode := fun _ _ _ => Returns tt;
  injectCode := fun _ _ => Returns tt;
  applyCode := applyOrFail
|}.

Definition loaded (addr : nat) (code filename : string)
    : @ProxyFactory world :=
  @mkProxyFactory world addr code filename
    (Some [VObservable; VTrackOperationTiming]).

End Flaky.

(** A process in which [main.js] runs: its directory holds the files
    [main.js] itself imports by relative path, and there are no global
    module directories. *)

Module NodeDemo.






End NodeDemo.

(** * Facts *)

Section Facts.

Context {C : Collaborators}.

(** ** The traces *)

Lemma countEvents_app (p : Event -> bool) (a b : list Event) :
  countEvents p (a ++ b) = countEvents p a + countEvents p b.
Proof.
  induction a as [|e a IH]; simpl; [reflexivity|].
  rewrite IH. lia.
Qed.

Lemma countEvents_none (p : Event -> bool) (evs : list Event) :
  Forall (fun e => p e = false) evs -> countEvents p evs = 0.
Proof.
  induction 1 as [|e evs He _ IH]; simpl; [reflexivity|].
  rewrite He, IH. reflexivity.
Qed.

Lemma isParserCall_isParse p e : isParse e = false -> isParserCall p e = false.
Proof. destruct e; simpl; congruence. Qed.

Lemma isParserReturn_isParse p e :
  isParse e = false -> isParserReturn p e = false.
Proof. destruct e; simpl; congruence. Qed.

Lemma parserCalls_silent p tr evs :
  Forall (fun e => isParse e = false) evs ->
  parserCalls p (tr ++ evs) = parserCalls p tr.
Proof.
  intros H. unfold parserCalls. rewrite countEvents_app.
  rewrite (countEvents_none (isParserCall p) evs); [lia|].
  eapply Forall_impl; [exact H|]. intros e. apply isParserCall_isParse.
Qed.

Lemma parserReturns_silent p tr evs :
  Forall (fun e => isParse e = false) evs ->
  parserReturns p (tr ++ evs) = parserReturns p tr.
Proof.
  intros H. unfold parserReturns. rewrite countEvents_app.
  rewrite (countEvents_none (isParserReturn p) evs); [lia|].
  eapply Forall_impl; [exact H|]. intros e. apply isParserReturn_isParse.
Qed.

(** ** The code, case by case *)

Lemma advance_advance n1 evs1 n2 evs2 (s : State) :
  advance n2 evs2 (advance n1 evs1 s) = advance (n2 + n1) (evs1 ++ evs2) s.
Proof.
  unfold advance; simpl. f_equal; [lia | apply eq_sym, app_assoc].
Qed.

Lemma getDefinitions_outcome p s :
  DefinitionsOutcome p s (getDefinitions p s).1 (getDefinitions p s).2.
Proof.
  unfold getDefinitions, bind, definitionsCache_has, definitionsCache_get.
  destruct (definitionsCache s !! p) as [d|] eqn:Hc; simpl.
  - rewrite Hc. simpl. by apply DefsCached.
  - unfold loadDefinitions, bind, resolvePath, readFileSync.
    destruct (resolveFilename (files s) p) as [rp|e] eqn:Hr; simpl;
      [|by apply DefsUnresolved].
    destruct (files s !! rp) as [src|] eqn:Hf; simpl;
      [|by eapply DefsUnreadable].
    unfold callParser.
    destruct (parseServiceDefinition rp src) as [body|e] eqn:Hp; simpl.
    + rewrite lookup_insert_eq. simpl.
      by apply (DefsParsed p s rp src body).
    + by apply DefsRejected.
Qed.

Lemma build_outcome n b p s :
  match getDefinitions p s with
  | (Throws e, s0) => createProxyFactory n b p s = (Throws e, s0)
  | (Returns d, s0) =>
      BuildOutcome n b p d s0 (createProxyFactory n b p s).1
        (createProxyFactory n b p s).2
  end.
Proof.
  unfold createProxyFactory.
  set (k := fun defs : Definitions => bind (log _) _).
  unfold bind.
  destruct (getDefinitions p s) as [[d|e] s0]; [|reflexivity].
  subst k.
  unfold bind, log, lift, loadCodeAsModule, inject, alloc, ret; simpl.
  destruct (generateProxy n b (def_body d)) as [code|e] eqn:Hg; simpl;
    [|by apply BuildUngenerated].
  fold (proxyFilename p). fold (proxyModule (proxyFilename p)).
  destruct (compileCode (proxyModule (proxyFilename p)) code
              (proxyFilename p)) as [[]|e] eqn:Hc; simpl.
  - destruct (injectCode code [VObservable; VTrackOperationTiming])
      as [[]|e] eqn:Hi; simpl.
    + pose proof (BuildDone n b p d s0 code Hg Hc Hi) as H.
      unfold advance in H; simpl in H.
      repeat rewrite <- app_assoc. exact H.
    + pose proof (BuildUninjected n b p d s0 code e Hg Hc Hi) as H.
      unfold advance in H; simpl in H.
      repeat rewrite <- app_assoc. exact H.
  - pose proof (BuildUnloaded n b p d s0 code e Hg Hc) as H.
    unfold advance in H; simpl in H.
    repeat rewrite <- app_assoc. exact H.
Qed.

Lemma createProxyFactory_outcome n b p s :
  FactoryOutcome n b p s (createProxyFactory n b p s).1
    (createProxyFactory n b p s).2.
Proof.
  pose proof (getDefinitions_outcome p s) as Hd.
  pose proof (build_outcome n b p s) as Hb.
  destruct (getDefinitions p s) as [[d|e] s0]; simpl in Hd.
  - by eapply FactoryBuilt.
  - rewrite Hb. simpl. by apply FactoryNoDefinitions.
Qed.

Lemma applyFactory_outcome f c s :
  ApplyOutcome f c s (applyFactory f c s).1 (applyFactory f c s).2.
Proof.
  unfold applyFactory, runFactory, bind, log, lift, alloc, ret; simpl.
  destruct (applyCode (fac_code f) (fac_injected f) c) as [surf|e] eqn:Ha;
    simpl.
  - by apply ApplyReturned.
  - by apply ApplyThrew.
Qed.

Lemma getProxy_hit n p c s f :
  proxiesCache s !! p = Some f -> getProxy n p c s = applyFactory f c s.
Proof.
  intros H. unfold getProxy, bind, proxiesCache_has, proxiesCache_get.
  rewrite H; simpl. rewrite H; simpl. by destruct (applyFactory f c s) as [[]].
Qed.

Lemma getProxy_miss n p c s :
  proxiesCache s !! p = None ->
  getProxy n p c s =
    match createProxyFactory n false p s with
    | (Returns f, s1) => applyFactory f c (withProxy p f s1)
    | (Throws e, s1) => (Throws e, s1)
    end.
Proof.
  intros H. unfold getProxy, bind, proxiesCache_has, proxiesCache_get.
  rewrite H; simpl.
  destruct (createProxyFactory n false p s) as [[f|e] s1]; simpl;
    [|reflexivity].
  rewrite lookup_insert_eq; simpl.
  unfold withProxy; simpl.
  by destruct (applyFactory f c _) as [[]].
Qed.

Lemma getProxy_outcome n p c s :
  ProxyOutcome n p c s (getProxy n p c s).1 (getProxy n p c s).2.
Proof.
  destruct (proxiesCache s !! p) as [f|] eqn:Hc.
  - rewrite (getProxy_hit n p c s f Hc).
    eapply ProxyHit; [exact Hc | apply applyFactory_outcome].
  - rewrite (getProxy_miss n p c s Hc).
    pose proof (createProxyFactory_outcome n false p s) as Hf.
    destruct (createProxyFactory n false p s) as [[f|e] s1]; simpl in Hf.
    + eapply ProxyMiss; [exact Hc | exact Hf | apply applyFactory_outcome].
    + simpl. by apply ProxyNoFactory.
Qed.

(** ** Stores only grow *)

Ltac store_simpl :=
  unfold advance, withDefinitions, withProxy, setFiles,
    definitionsCache_set, proxiesCache_set in *; simpl in *.

Lemma Extends_refl s : Extends s s.
Proof. split; auto. exists []. by rewrite app_nil_r. Qed.

Lemma Extends_trans s1 s2 s3 : Extends s1 s2 -> Extends s2 s3 -> Extends s1 s3.
Proof.
  intros [d1 p1 n1 [e1 t1]] [d2 p2 n2 [e2 t2]]. split; auto.
  - lia.
  - exists (e1 ++ e2). rewrite t2, t1. by rewrite app_assoc.
Qed.

Lemma Extends_advance k evs s : Extends s (advance k evs s).
Proof. split; store_simpl; auto; [lia | by exists evs]. Qed.

Lemma Extends_withDefinitions p d s :
  definitionsCache s !! p = None -> Extends s (withDefinitions p d s).
Proof.
  intros H. split; store_simpl; auto.
  - intros q d' Hq. rewrite lookup_insert_ne; [done | congruence].
  - exists []. by rewrite app_nil_r.
Qed.

Lemma Extends_withProxy p f s :
  proxiesCache s !! p = None -> Extends s (withProxy p f s).
Proof.
  intros H. split; store_simpl; auto.
  - intros q f' Hq. rewrite lookup_insert_ne; [done | congruence].
  - exists []. by rewrite app_nil_r.
Qed.

Lemma Extends_setFiles disk s : Extends s (setFiles disk s).
Proof. split; store_simpl; auto. exists []. by rewrite app_nil_r. Qed.

Lemma Frame_refl p s : Frame p s s.
Proof. by split. Qed.

Lemma Frame_trans p s1 s2 s3 : Frame p s1 s2 -> Frame p s2 s3 -> Frame p s1 s3.
Proof.
  intros [f1 d1 p1] [f2 d2 p2]. split.
  - congruence.
  - intros k Hk. rewrite d2, d1; auto.
  - intros k Hk. rewrite p2, p1; auto.
Qed.

Lemma Frame_advance p k evs s : Frame p s (advance k evs s).
Proof. by split. Qed.

Lemma Frame_withDefinitions p d s : Frame p s (withDefinitions p d s).
Proof.
  split; store_simpl; auto. intros k Hk. by rewrite lookup_insert_ne.
Qed.

Lemma Frame_withProxy p f s : Frame p s (withProxy p f s).
Proof.
  split; store_simpl; auto. intros k Hk. by rewrite lookup_insert_ne.
Qed.

(** ** The invariant *)

Lemma Inv_initial disk : Inv (initial disk).
Proof.
  split; simpl; intros p; try (intros ? H; by rewrite lookup_empty in H).
  by rewrite lookup_empty.
Qed.

Lemma Inv_advance k evs s : silent evs -> Inv s -> Inv (advance k evs s).
Proof.
  intros Hs [Hd Hf Hp Hg]. split; store_simpl.
  - intros p d H. specialize (Hd p d H). lia.
  - intros p f H. specialize (Hf p f H). lia.
  - intros p. rewrite parserReturns_silent; auto.
  - exact Hg.
Qed.

Lemma Inv_setFiles disk s : Inv s -> Inv (setFiles disk s).
Proof. intros [Hd Hf Hp Hg]. by split. Qed.

Lemma Inv_parsed_step p rp src body s :
  Inv s ->
  definitionsCache s !! p = None ->
  Inv (withDefinitions p {| def_addr := next_addr s; def_body := body |}
         (advance 1 [EvParse p rp src (Some (next_addr s))] s)).
Proof.
  intros [Hd Hf Hp Hg] Hnone. split; store_simpl.
  - intros q d. destruct (decide (p = q)) as [->|Hne].
    + rewrite lookup_insert_eq. intros [= <-]. simpl. lia.
    + rewrite lookup_insert_ne by done. intros H.
      specialize (Hd q d H). lia.
  - intros q f H. specialize (Hf q f H). lia.
  - intros q. unfold parserReturns. rewrite countEvents_app. simpl.
    fold (parserReturns q (trace s)). rewrite Hp.
    destruct (decide (p = q)) as [->|Hne].
    + rewrite lookup_insert_eq, Hnone.
      rewrite bool_decide_eq_true_2 by done. reflexivity.
    + rewrite lookup_insert_ne by done.
      rewrite bool_decide_eq_false_2 by done.
      destruct (definitionsCache s !! q); reflexivity.
  - intros q f H. destruct (Hg q f H) as (n & d & Hq & Hrest).
    exists n, d. split; [|exact Hrest].
    rewrite lookup_insert_ne; [exact Hq | congruence].
Qed.

Lemma Inv_rejected_step p rp src s :
  Inv s -> Inv (advance 0 [EvParse p rp src None] s).
Proof.
  intros [Hd Hf Hp Hg]. split; store_simpl; auto.
  intros q. unfold parserReturns. rewrite countEvents_app. simpl.
  fold (parserReturns q (trace s)). rewrite Hp. lia.
Qed.

Lemma Inv_withProxy p f n d s :
  Inv s ->
  definitionsCache s !! p = Some d ->
  generateProxy n false (def_body d) = Returns (fac_code f) ->
  fac_injected f = Some injectedArgs ->
  fac_filename f = proxyFilename p ->
  fac_addr f < next_addr s ->
  Inv (withProxy p f s).
Proof.
  intros [Hd Hf Hp Hg] Hdef Hgen Hinj Hname Haddr. split; store_simpl; auto.
  - intros q f'. destruct (decide (p = q)) as [->|Hne].
    + rewrite lookup_insert_eq. by intros [= <-].
    + rewrite lookup_insert_ne by done. apply Hf.
  - intros q f'. destruct (decide (p = q)) as [->|Hne].
    + rewrite lookup_insert_eq. intros [= <-]. by exists n, d.
    + rewrite lookup_insert_ne by done. apply Hg.
Qed.

(** ** What each call does to the store *)

Lemma parserCalls_other p q rp src out tr :
  p <> q -> parserCalls q (tr ++ [EvParse p rp src out]) = parserCalls q tr.
Proof.
  intros Hne. unfold parserCalls. rewrite countEvents_app. simpl.
  rewrite bool_decide_eq_false_2 by done. lia.
Qed.

Lemma DefinitionsOutcome_Extends p s r s' :
  DefinitionsOutcome p s r s' -> Extends s s'.
Proof.
  destruct 1; try apply Extends_refl; try apply Extends_advance.
  eapply Extends_trans; [apply Extends_advance|].
  by apply Extends_withDefinitions.
Qed.

Lemma DefinitionsOutcome_Frame p s r s' :
  DefinitionsOutcome p s r s' ->
  Frame p s s' /\ proxiesCache s' = proxiesCache s.
Proof.
  destruct 1; split; try reflexivity; try apply Frame_refl;
    try apply Frame_advance.
  eapply Frame_trans; [apply Frame_advance | apply Frame_withDefinitions].
Qed.

Lemma DefinitionsOutcome_Inv p s r s' :
  DefinitionsOutcome p s r s' -> Inv s -> Inv s'.
Proof.
  destruct 1; intros HI; auto.
  - by apply Inv_rejected_step.
  - by apply Inv_parsed_step.
Qed.

Lemma DefinitionsOutcome_returns p s d s' :
  DefinitionsOutcome p s (Returns d) s' ->
  definitionsCache s' !! p = Some d
  /\ (definitionsCache s !! p = Some d /\ s' = s
      \/ definitionsCache s !! p = None /\ def_addr d = next_addr s
         /\ next_addr s' = S (next_addr s)
         /\ exists rp src,
              resolveFilename (files s) p = Returns rp
              /\ files s !! rp = Some src
              /\ parseServiceDefinition rp src = Returns (def_body d)
              /\ trace s' = trace s ++ [EvParse p rp src (Some (def_addr d))]).
Proof.
  inversion 1; subst.
  - split; [done | by left].
  - split; [apply lookup_insert_eq|]. right.
    repeat split; auto. by exists resolvedPath, source.
Qed.

Lemma DefinitionsOutcome_throws p s e s' :
  DefinitionsOutcome p s (Throws e) s' ->
  definitionsCache s !! p = None
  /\ files s' = files s
  /\ definitionsCache s' = definitionsCache s
  /\ proxiesCache s' = proxiesCache s
  /\ next_addr s' = next_addr s.
Proof. inversion 1; subst; by repeat split. Qed.

Lemma DefinitionsOutcome_no_reparse p s r s' q :
  DefinitionsOutcome p s r s' ->
  is_Some (definitionsCache s !! q) ->
  parserCalls q (trace s') = parserCalls q (trace s).
Proof.
  intros H [d Hq].
  assert (definitionsCache s !! p = None -> p <> q) as Hne by congruence.
  destruct H; try reflexivity; store_simpl; apply parserCalls_other; auto.
Qed.

Lemma BuildOutcome_advance n b p d s r s' :
  BuildOutcome n b p d s r s' ->
  exists k evs, s' = advance k evs s /\ silent evs.
Proof.
  destruct 1; eexists _, _; (split; [reflexivity|]);
    repeat constructor.
Qed.

Lemma BuildOutcome_returns n b p d s f s' :
  BuildOutcome n b p d s (Returns f) s' ->
  fac_addr f = next_addr s
  /\ next_addr s' = S (next_addr s)
  /\ generateProxy n b (def_body d) = Returns (fac_code f)
  /\ fac_injected f = Some injectedArgs
  /\ fac_filename f = proxyFilename p.
Proof. inversion 1; subst; by repeat split. Qed.

Lemma ApplyOutcome_advance f c s r s' :
  ApplyOutcome f c s r s' ->
  exists k, s' = advance k [EvApply (fac_addr f) [VContext c]] s.
Proof. destruct 1; by eexists. Qed.

Lemma ApplyOutcome_returns f c s px s' :
  ApplyOutcome f c s (Returns px) s' ->
  proxy_addr px = next_addr s
  /\ next_addr s' = S (next_addr s)
  /\ proxy_factory px = fac_addr f
  /\ proxy_context px = c
  /\ applyCode (fac_code f) (fac_injected f) c = Returns (proxy_surface px).
Proof. inversion 1; subst; by repeat split. Qed.

Lemma silent_apply f c : silent [EvApply f c].
Proof. by repeat constructor. Qed.

Lemma FactoryOutcome_Extends n b p s r s' :
  FactoryOutcome n b p s r s' -> Extends s s'.
Proof.
  destruct 1 as [e s0 Hd | d s0 r s1 Hd Hb].
  - by eapply DefinitionsOutcome_Extends.
  - destruct (BuildOutcome_advance _ _ _ _ _ _ _ Hb) as (k & evs & -> & _).
    eapply Extends_trans; [by eapply DefinitionsOutcome_Extends|].
    apply Extends_advance.
Qed.

Lemma FactoryOutcome_Frame n b p s r s' :
  FactoryOutcome n b p s r s' ->
  Frame p s s' /\ proxiesCache s' = proxiesCache s.
Proof.
  destruct 1 as [e s0 Hd | d s0 r s1 Hd Hb].
  - by eapply DefinitionsOutcome_Frame.
  - destruct (BuildOutcome_advance _ _ _ _ _ _ _ Hb) as (k & evs & -> & _).
    destruct (DefinitionsOutcome_Frame _ _ _ _ Hd) as [HF Hp].
    split; [|exact Hp].
    eapply Frame_trans; [exact HF | apply Frame_advance].
Qed.

Lemma FactoryOutcome_Inv n b p s r s' :
  FactoryOutcome n b p s r s' -> Inv s -> Inv s'.
Proof.
  destruct 1 as [e s0 Hd | d s0 r s1 Hd Hb]; intros HI.
  - by eapply DefinitionsOutcome_Inv.
  - destruct (BuildOutcome_advance _ _ _ _ _ _ _ Hb) as (k & evs & -> & Hs).
    apply Inv_advance; [exact Hs|]. by eapply DefinitionsOutcome_Inv.
Qed.

Lemma FactoryOutcome_no_reparse n b p s r s' q :
  FactoryOutcome n b p s r s' ->
  is_Some (definitionsCache s !! q) ->
  parserCalls q (trace s') = parserCalls q (trace s).
Proof.
  destruct 1 as [e s0 Hd | d s0 r s1 Hd Hb]; intros Hq.
  - by eapply DefinitionsOutcome_no_reparse.
  - destruct (BuildOutcome_advance _ _ _ _ _ _ _ Hb) as (k & evs & -> & Hs).
    store_simpl. rewrite parserCalls_silent by done.
    by eapply DefinitionsOutcome_no_reparse.
Qed.

Lemma FactoryOutcome_returns n b p s f s' :
  FactoryOutcome n b p s (Returns f) s' ->
  next_addr s <= fac_addr f < next_addr s'
  /\ fac_injected f = Some injectedArgs
  /\ fac_filename f = proxyFilename p
  /\ exists d,
       definitionsCache s' !! p = Some d
       /\ generateProxy n b (def_body d) = Returns (fac_code f).
Proof.
  inversion 1 as [| d s0 r s1 Hd Hb]; subst.
  destruct (BuildOutcome_returns _ _ _ _ _ _ _ Hb)
    as (Ha & Hn & Hg & Hi & Hf).
  destruct (BuildOutcome_advance _ _ _ _ _ _ _ Hb) as (k & evs & -> & _).
  pose proof (ext_next _ _ (DefinitionsOutcome_Extends _ _ _ _ Hd)).
  destruct (DefinitionsOutcome_returns _ _ _ _ Hd) as [Hc _].
  repeat split; auto; try lia.
  exists d. by split.
Qed.

Lemma ProxyOutcome_Extends n p c s r s' :
  ProxyOutcome n p c s r s' -> Extends s s'.
Proof.
  destruct 1 as [f r s1 Hc Ha | e s1 Hc Hf | f s1 r s2 Hc Hf Ha].
  - destruct (ApplyOutcome_advance _ _ _ _ _ Ha) as (k & ->).
    apply Extends_advance.
  - by eapply FactoryOutcome_Extends.
  - destruct (ApplyOutcome_advance _ _ _ _ _ Ha) as (k & ->).
    eapply Extends_trans; [by eapply FactoryOutcome_Extends|].
    eapply Extends_trans; [|apply Extends_advance].
    apply Extends_withProxy.
    destruct (FactoryOutcome_Frame _ _ _ _ _ _ Hf) as [_ ->]. exact Hc.
Qed.

Lemma ProxyOutcome_Frame n p c s r s' :
  ProxyOutcome n p c s r s' -> Frame p s s'.
Proof.
  destruct 1 as [f r s1 Hc Ha | e s1 Hc Hf | f s1 r s2 Hc Hf Ha].
  - destruct (ApplyOutcome_advance _ _ _ _ _ Ha) as (k & ->).
    apply Frame_advance.
  - by eapply FactoryOutcome_Frame.
  - destruct (ApplyOutcome_advance _ _ _ _ _ Ha) as (k & ->).
    eapply Frame_trans; [by eapply FactoryOutcome_Frame|].
    eapply Frame_trans; [apply Frame_withProxy | apply Frame_advance].
Qed.

Lemma ProxyOutcome_Inv n p c s r s' :
  ProxyOutcome n p c s r s' -> Inv s -> Inv s'.
Proof.
  destruct 1 as [f r s1 Hc Ha | e s1 Hc Hf | f s1 r s2 Hc Hf Ha];
    intros HI.
  - destruct (ApplyOutcome_advance _ _ _ _ _ Ha) as (k & ->).
    apply Inv_advance; [apply silent_apply | exact HI].
  - by eapply FactoryOutcome_Inv.
  - destruct (ApplyOutcome_advance _ _ _ _ _ Ha) as (k & ->).
    apply Inv_advance; [apply silent_apply|].
    destruct (FactoryOutcome_returns _ _ _ _ _ _ Hf)
      as (Haddr & Hi & Hn & d & Hd & Hg).
    eapply Inv_withProxy; eauto; [by eapply FactoryOutcome_Inv | lia].
Qed.

Lemma ProxyOutcome_no_reparse n p c s r s' q :
  ProxyOutcome n p c s r s' ->
  is_Some (definitionsCache s !! q) ->
  parserCalls q (trace s') = parserCalls q (trace s).
Proof.
  destruct 1 as [f r s1 Hc Ha | e s1 Hc Hf | f s1 r s2 Hc Hf Ha];
    intros Hq.
  - destruct (ApplyOutcome_advance _ _ _ _ _ Ha) as (k & ->).
    store_simpl. apply parserCalls_silent, silent_apply.
  - by eapply FactoryOutcome_no_reparse.
  - destruct (ApplyOutcome_advance _ _ _ _ _ Ha) as (k & ->).
    store_simpl. rewrite parserCalls_silent by apply silent_apply.
    by eapply FactoryOutcome_no_reparse.
Qed.

(** ** The calls each function makes *)

Lemma DefinitionsOutcome_events n b p s r s' :
  DefinitionsOutcome p s r s' ->
  exists evs, trace s' = trace s ++ evs /\ Forall (buildEvent n b p) evs.
Proof.
  destruct 1; store_simpl;
    try (exists []; split; [by rewrite app_nil_r | constructor]);
    eexists; (split; [reflexivity|]); by repeat constructor.
Qed.

Lemma BuildOutcome_events n b p d s r s' :
  BuildOutcome n b p d s r s' ->
  exists evs, trace s' = trace s ++ evs /\ Forall (buildEvent n b p) evs.
Proof.
  destruct 1; store_simpl;
    eexists; (split; [reflexivity|]); by repeat constructor.
Qed.

Lemma FactoryOutcome_events n b p s r s' :
  FactoryOutcome n b p s r s' ->
  exists evs, trace s' = trace s ++ evs /\ Forall (buildEvent n b p) evs.
Proof.
  destruct 1 as [e s0 Hd | d s0 r s1 Hd Hb].
  - by eapply DefinitionsOutcome_events.
  - destruct (DefinitionsOutcome_events n b _ _ _ _ Hd) as (e1 & T1 & H1).
    destruct (BuildOutcome_events _ _ _ _ _ _ _ Hb) as (e2 & T2 & H2).
    exists (e1 ++ e2). split; [by rewrite T2, T1, app_assoc|].
    by apply Forall_app.
Qed.

Lemma buildEvent_proxyEvent n p c e : buildEvent n false p e -> proxyEvent n p c e.
Proof. by destruct e. Qed.

Lemma ProxyOutcome_events n p c s r s' :
  ProxyOutcome n p c s r s' ->
  exists evs, trace s' = trace s ++ evs /\ Forall (proxyEvent n p c) evs.
Proof.
  destruct 1 as [f r s1 Hc Ha | e s1 Hc Hf | f s1 r s2 Hc Hf Ha].
  - destruct (ApplyOutcome_advance _ _ _ _ _ Ha) as (k & ->).
    eexists; split; [reflexivity|]. by repeat constructor.
  - destruct (FactoryOutcome_events _ _ _ _ _ _ Hf) as (evs & Ht & H).
    exists evs; split; [exact Ht|].
    eapply Forall_impl; [exact H|]. intros e'. apply buildEvent_proxyEvent.
  - destruct (ApplyOutcome_advance _ _ _ _ _ Ha) as (k & ->).
    destruct (FactoryOutcome_events _ _ _ _ _ _ Hf) as (evs & Ht & H).
    store_simpl. rewrite Ht.
    eexists; split; [by rewrite <- app_assoc|].
    apply Forall_app; split; [|by repeat constructor].
    eapply Forall_impl; [exact H|]. intros e'. apply buildEvent_proxyEvent.
Qed.

Lemma ProxyOutcome_returns n p c s px s' :
  ProxyOutcome n p c s (Returns px) s' ->
  exists f,
    proxiesCache s' !! p = Some f
    /\ proxy_factory px = fac_addr f
    /\ proxy_context px = c
    /\ next_addr s <= proxy_addr px < next_addr s'
    /\ applyCode (fac_code f) (fac_injected f) c
         = Returns (proxy_surface px)
    /\ exists evs,
         trace s' = trace s ++ evs ++ [EvApply (fac_addr f) [VContext c]].
Proof.
  inversion 1 as [f r s1 Hc Ha | | f s1 r s2 Hc Hf Ha]; subst.
  - destruct (ApplyOutcome_returns _ _ _ _ _ Ha) as (A1 & A2 & A3 & A4 & A5).
    destruct (ApplyOutcome_advance _ _ _ _ _ Ha) as (k & ->).
    exists f. repeat split; auto; try lia. by exists [].
  - destruct (ApplyOutcome_returns _ _ _ _ _ Ha) as (A1 & A2 & A3 & A4 & A5).
    destruct (ApplyOutcome_advance _ _ _ _ _ Ha) as (k & ->).
    pose proof (ext_next _ _ (FactoryOutcome_Extends _ _ _ _ _ _ Hf)).
    destruct (FactoryOutcome_events _ _ _ _ _ _ Hf) as (evs & Ht & _).
    store_simpl.
    exists f. rewrite lookup_insert_eq. repeat split; auto; try lia.
    exists evs. by rewrite Ht, <- app_assoc.
Qed.

(** ** Clients *)

Lemma step_Extends s o : Extends s (step s o).
Proof.
  destruct o; simpl.
  - eapply DefinitionsOutcome_Extends, getDefinitions_outcome.
  - eapply ProxyOutcome_Extends, getProxy_outcome.
  - eapply FactoryOutcome_Extends, createProxyFactory_outcome.
  - apply Extends_setFiles.
Qed.

Lemma step_Inv s o : Inv s -> Inv (step s o).
Proof.
  destruct o; simpl.
  - eapply DefinitionsOutcome_Inv, getDefinitions_outcome.
  - eapply ProxyOutcome_Inv, getProxy_outcome.
  - eapply FactoryOutcome_Inv, createProxyFactory_outcome.
  - apply Inv_setFiles.
Qed.

Lemma step_no_reparse s o q :
  is_Some (definitionsCache s !! q) ->
  parserCalls q (trace (step s o)) = parserCalls q (trace s).
Proof.
  destruct o; simpl.
  - eapply DefinitionsOutcome_no_reparse, getDefinitions_outcome.
  - eapply ProxyOutcome_no_reparse, getProxy_outcome.
  - eapply FactoryOutcome_no_reparse, createProxyFactory_outcome.
  - reflexivity.
Qed.

Lemma client_run_Extends ops s : Extends s (client_run ops s).
Proof.
  revert s. induction ops as [|o ops IH]; intros s; simpl.
  - apply Extends_refl.
  - eapply Extends_trans; [apply step_Extends | apply IH].
Qed.

Lemma client_run_Inv ops s : Inv s -> Inv (client_run ops s).
Proof.
  revert s. induction ops as [|o ops IH]; intros s HI; simpl; auto.
  apply IH, step_Inv, HI.
Qed.

Lemma client_run_no_reparse ops s q :
  is_Some (definitionsCache s !! q) ->
  parserCalls q (trace (client_run ops s)) = parserCalls q (trace s).
Proof.
  revert s. induction ops as [|o ops IH]; intros s Hq; simpl; auto.
  rewrite IH.
  - by apply step_no_reparse.
  - destruct Hq as [d Hd]. exists d.
    by apply (ext_defs _ _ (step_Extends s o)).
Qed.

Lemma reachable_Inv disk ops : Inv (client_run ops (initial disk)).
Proof. apply client_run_Inv, Inv_initial. Qed.

End Facts.

(** * The registry and the factory cache *)

Section Registry.

Context {C : Collaborators}.

(** C1.  Once a call [getDefinitions(P)] has returned, every later call
    for [P] returns that same object (same address, same payload) and
    leaves the store as it found it, whatever the client did in between,
    a change of the files on disk included.  The parser has returned
    exactly once on behalf of [P], and from the first returning call on
    it is not even run again for [P]. *)
Theorem getDefinitions_memoized disk ops1 ops2 p d :
  let s := client_run ops1 (initial disk) in
  (getDefinitions p s).1 = Returns d ->
  let s1 := (getDefinitions p s).2 in
  let s2 := client_run ops2 s1 in
  getDefinitions p s2 = (Returns d, s2)
  /\ parserReturns p (trace s2) = 1
  /\ parserCalls p (trace s2) = parserCalls p (trace s1).
Proof.
  intros s Hret s1 s2.
  pose proof (getDefinitions_outcome p s) as Ho.
  rewrite Hret in Ho. fold s1 in Ho.
  destruct (DefinitionsOutcome_returns _ _ _ _ Ho) as [Hd1 _].
  assert (definitionsCache s2 !! p = Some d) as Hd2
    by apply (ext_defs _ _ (client_run_Extends ops2 s1)), Hd1.
  assert (Inv s2) as HI.
  { apply client_run_Inv. eapply DefinitionsOutcome_Inv; [exact Ho|].
    apply reachable_Inv. }
  split; [|split].
  - pose proof (getDefinitions_outcome p s2) as Ho2.
    destruct (getDefinitions p s2) as [r s3]; simpl in Ho2.
    inversion Ho2; subst; congruence.
  - rewrite (inv_parsed _ HI p), Hd2. reflexivity.
  - apply client_run_no_reparse. by exists d.
Qed.

(** C2.  Two calls of [getProxy] for the same path that return were
    served by one and the same cached factory; each call applied it, to
    the context it was given and to nothing else, as the last thing it
    did, and each got an object of its own, bound to its context. *)
Theorem getProxy_shares_factory_not_proxies
    disk ops1 ops2 n1 n2 p c1 c2 px1 px2 :
  let s := client_run ops1 (initial disk) in
  (getProxy n1 p c1 s).1 = Returns px1 ->
  let s1 := (getProxy n1 p c1 s).2 in
  let s2 := client_run ops2 s1 in
  (getProxy n2 p c2 s2).1 = Returns px2 ->
  let s3 := (getProxy n2 p c2 s2).2 in
  exists f,
    proxiesCache s1 !! p = Some f /\ proxiesCache s2 !! p = Some f
    /\ proxy_factory px1 = fac_addr f /\ proxy_factory px2 = fac_addr f
    /\ proxy_context px1 = c1 /\ proxy_context px2 = c2
    /\ proxy_addr px1 <> proxy_addr px2
    /\ applyCode (fac_code f) (fac_injected f) c1
         = Returns (proxy_surface px1)
    /\ applyCode (fac_code f) (fac_injected f) c2
         = Returns (proxy_surface px2)
    /\ (exists evs,
          trace s1 = trace s ++ evs ++ [EvApply (fac_addr f) [VContext c1]])
    /\ trace s3 = trace s2 ++ [EvApply (fac_addr f) [VContext c2]].
Proof.
  intros s H1 s1 s2 H2 s3.
  pose proof (getProxy_outcome n1 p c1 s) as Ho1.
  rewrite H1 in Ho1. fold s1 in Ho1.
  destruct (ProxyOutcome_returns _ _ _ _ _ _ Ho1)
    as (f & Hf1 & Hfac1 & Hctx1 & Haddr1 & Happ1 & Hev1).
  assert (proxiesCache s2 !! p = Some f) as Hf2
    by apply (ext_proxies _ _ (client_run_Extends ops2 s1)), Hf1.
  pose proof (ext_next _ _ (client_run_Extends ops2 s1)) as Hn.
  fold s2 in Hn.
  pose proof (applyFactory_outcome f c2 s2) as Ho2.
  unfold s3. rewrite (getProxy_hit n2 p c2 s2 f Hf2) in H2 |- *.
  rewrite H2 in Ho2.
  destruct (ApplyOutcome_returns _ _ _ _ _ Ho2) as (A1 & A2 & A3 & A4 & A5).
  destruct (ApplyOutcome_advance _ _ _ _ _ Ho2) as (k & ->).
  exists f. repeat split; auto; lia.
Qed.

End Registry.

(** * Building factories *)

Section Building.

Context {C : Collaborators}.

Lemma FactoryOutcome_built n b p s f s' :
  FactoryOutcome n b p s (Returns f) s' ->
  exists d parses,
    definitionsCache s' !! p = Some d
    /\ generateProxy n b (def_body d) = Returns (fac_code f)
    /\ trace s' = trace s ++ parses
         ++ [EvGenerate n b d;
             EvCompile (proxyModule (proxyFilename p)) (fac_code f)
               (proxyFilename p);
             EvInject (fac_addr f) injectedArgs]
    /\ (parses = [] /\ definitionsCache s !! p = Some d
        \/ definitionsCache s !! p = None
           /\ exists rp src, parses = [EvParse p rp src (Some (def_addr d))]).
Proof.
  inversion 1 as [| d s0 r s1 Hd Hb]; subst.
  destruct (DefinitionsOutcome_returns _ _ _ _ Hd) as [Hc Hcase].
  inversion Hb; subst; simpl.
  destruct Hcase as [[Hhit ->] | (Hmiss & Ha & Hn & rp & src & _ & _ & _ & Ht)].
  - exists d, []. repeat split; auto.
  - exists d, [EvParse p rp src (Some (def_addr d))].
    repeat split; auto.
    + rewrite Ht, <- app_assoc. reflexivity.
    + right. split; [done|]. by exists rp, src.
Qed.

(** C3, as the code has it.  [createProxyFactory] neither reads nor
    writes [proxiesCache]: every call that returns has asked the registry
    for the definitions (which parses on a miss only), then run the
    generator, then the loader, then [inject], in this order, and returns
    a factory that is none of the cached ones.  Caching by path is
    [getProxy]'s: on a miss it stores the factory
    [createProxyFactory(serviceName, false, P)] returns under [P], and
    every later [getProxy] for [P] only applies that factory. *)
Theorem createProxyFactory_builds_getProxy_caches disk ops n b p c f :
  let s := client_run ops (initial disk) in
  (createProxyFactory n b p s).1 = Returns f ->
  let s1 := (createProxyFactory n b p s).2 in
  proxiesCache s1 = proxiesCache s
  /\ (forall q g, proxiesCache s !! q = Some g -> fac_addr g <> fac_addr f)
  /\ (exists d parses,
        definitionsCache s1 !! p = Some d
        /\ generateProxy n b (def_body d) = Returns (fac_code f)
        /\ trace s1 = trace s ++ parses
             ++ [EvGenerate n b d;
                 EvCompile (proxyModule (proxyFilename p)) (fac_code f)
                   (proxyFilename p);
                 EvInject (fac_addr f) injectedArgs]
        /\ (parses = [] /\ definitionsCache s !! p = Some d
            \/ definitionsCache s !! p = None
               /\ exists rp src,
                    parses = [EvParse p rp src (Some (def_addr d))]))
  /\ (b = false -> proxiesCache s !! p = None ->
      proxiesCache (getProxy n p c s).2 !! p = Some f
      /\ forall ops' n' c',
           let s2 := client_run ops' (getProxy n p c s).2 in
           trace (getProxy n' p c' s2).2
             = trace s2 ++ [EvApply (fac_addr f) [VContext c']]).
Proof.
  intros s Hret s1.
  pose proof (createProxyFactory_outcome n b p s) as Ho.
  rewrite Hret in Ho. fold s1 in Ho.
  split; [by eapply FactoryOutcome_Frame|].
  split.
  { intros q g Hg.
    pose proof (inv_fac_addr _ (reachable_Inv disk ops) q g Hg).
    destruct (FactoryOutcome_returns _ _ _ _ _ _ Ho) as [? _].
    fold s in H. lia. }
  split; [by apply FactoryOutcome_built|].
  intros -> Hmiss.
  assert (proxiesCache (getProxy n p c s).2 !! p = Some f) as Hcached.
  { rewrite (getProxy_miss n p c s Hmiss).
    destruct (createProxyFactory n false p s) as [r s1'] eqn:E.
    simpl in Hret. subst r.
    destruct (ApplyOutcome_advance _ _ _ _ _
                (applyFactory_outcome f c (withProxy p f s1'))) as (k & ->).
    simpl. apply lookup_insert_eq. }
  split; [exact Hcached|].
  intros ops' n' c' s2.
  assert (proxiesCache s2 !! p = Some f) as Hf2
    by apply (ext_proxies _ _ (client_run_Extends ops' _)), Hcached.
  rewrite (getProxy_hit n' p c' s2 f Hf2).
  by destruct (ApplyOutcome_advance _ _ _ _ _
                 (applyFactory_outcome f c' s2)) as (k & ->).
Qed.

(** C4, as the code has it.  A failure of [getDefinitions(P)] leaves both
    caches as they were, with no entry for [P].  When
    [createProxyFactory] throws inside [getProxy], the same error leaves
    [getProxy], with the store [createProxyFactory] left, and
    [proxiesCache] is as it was, so a later call builds again.  The
    registry is a cache of its own: when the parser threw,
    [definitionsCache] is as it was; when the generator, the loader or
    [inject] threw, the definitions parsed on the way stay cached
    under [P]. *)
Theorem failures_leave_no_factory n p c s e :
  ((getDefinitions p s).1 = Throws e ->
     definitionsCache (getDefinitions p s).2 = definitionsCache s
     /\ proxiesCache (getDefinitions p s).2 = proxiesCache s
     /\ definitionsCache s !! p = None)
  /\ (proxiesCache s !! p = None ->
      (createProxyFactory n false p s).1 = Throws e ->
      getProxy n p c s = (Throws e, (createProxyFactory n false p s).2)
      /\ proxiesCache (getProxy n p c s).2 = proxiesCache s
      /\ match (getDefinitions p s).1 with
         | Throws e' =>
             e' = e
             /\ definitionsCache (getProxy n p c s).2 = definitionsCache s
         | Returns d =>
             definitionsCache (getProxy n p c s).2 !! p = Some d
             /\ definitionsCache (getProxy n p c s).2
                = definitionsCache (getDefinitions p s).2
         end).
Proof.
  split.
  - intros Hthrow.
    pose proof (getDefinitions_outcome p s) as Ho. rewrite Hthrow in Ho.
    destruct (DefinitionsOutcome_throws _ _ _ _ Ho) as (? & ? & ? & ? & ?).
    by repeat split.
  - intros Hmiss Hthrow.
    assert (getProxy n p c s = (Throws e, (createProxyFactory n false p s).2))
      as Heq.
    { rewrite (getProxy_miss n p c s Hmiss).
      destruct (createProxyFactory n false p s) as [r s1]; simpl in *.
      by subst r. }
    rewrite Heq; simpl.
    split; [reflexivity|].
    split.
    { eapply FactoryOutcome_Frame, createProxyFactory_outcome. }
    pose proof (getDefinitions_outcome p s) as Hd.
    pose proof (build_outcome n false p s) as Hb.
    destruct (getDefinitions p s) as [[d|e'] s0]; simpl in *.
    + destruct (BuildOutcome_advance _ _ _ _ _ _ _ Hb) as (k & evs & -> & _).
      simpl. split; [|reflexivity].
      by destruct (DefinitionsOutcome_returns _ _ _ _ Hd).
    + rewrite Hb in Hthrow |- *. simpl in *.
      split; [congruence|].
      by destruct (DefinitionsOutcome_throws _ _ _ _ Hd) as (? & ? & ? & ?).
Qed.

End Building.

(** * What a factory is given *)

Section Instrumentation.

Context {C : Collaborators}.

Lemma getProxy_hit_trace n p c s f :
  proxiesCache s !! p = Some f ->
  trace (getProxy n p c s).2 = trace s ++ [EvApply (fac_addr f) [VContext c]].
Proof.
  intros H. rewrite (getProxy_hit n p c s f H).
  by destruct (ApplyOutcome_advance _ _ _ _ _ (applyFactory_outcome f c s))
    as (k & ->).
Qed.

(** C5, as the code has it.  [getProxy] applies a factory to one
    argument, the context.  The stream builder and the timing wrapper
    reach the generated module through its [inject] export, which
    [createProxyFactory] calls once with exactly these two, when the
    factory is built; on a cache hit nothing is injected.  The factory
    every returning call applied holds the two from that injection. *)
Theorem instrumentation_injected_at_creation disk ops n p c :
  let s := client_run ops (initial disk) in
  let s' := (getProxy n p c s).2 in
  exists evs,
    trace s' = trace s ++ evs
    /\ (forall f args, EvApply f args ∈ evs -> args = [VContext c])
    /\ (forall f args, EvInject f args ∈ evs ->
          args = [VObservable; VTrackOperationTiming]
          /\ proxiesCache s !! p = None)
    /\ (forall px, (getProxy n p c s).1 = Returns px ->
          exists f,
            proxiesCache s' !! p = Some f
            /\ proxy_factory px = fac_addr f
            /\ fac_injected f = Some [VObservable; VTrackOperationTiming]
            /\ applyCode (fac_code f)
                 (Some [VObservable; VTrackOperationTiming]) c
               = Returns (proxy_surface px)).
Proof.
  intros s s'.
  pose proof (getProxy_outcome n p c s) as Ho. fold s' in Ho.
  assert (Inv s') as HI.
  { eapply ProxyOutcome_Inv; [exact Ho | apply reachable_Inv]. }
  assert (forall px, (getProxy n p c s).1 = Returns px ->
            exists f,
              proxiesCache s' !! p = Some f
              /\ proxy_factory px = fac_addr f
              /\ fac_injected f = Some [VObservable; VTrackOperationTiming]
              /\ applyCode (fac_code f)
                   (Some [VObservable; VTrackOperationTiming]) c
                 = Returns (proxy_surface px)) as Hret.
  { intros px Hpx. rewrite Hpx in Ho.
    destruct (ProxyOutcome_returns _ _ _ _ _ _ Ho)
      as (f & Hf & Hfac & _ & _ & Happ & _).
    destruct (inv_factory _ HI p f Hf) as (n0 & d & _ & _ & Hinj & _).
    exists f. rewrite Hinj in Happ. by repeat split. }
  destruct (proxiesCache s !! p) as [f|] eqn:Hc.
  - exists [EvApply (fac_addr f) [VContext c]].
    split; [by apply getProxy_hit_trace|].
    split; [|split; [|exact Hret]].
    + intros g args Hin. apply list_elem_of_singleton in Hin. congruence.
    + intros g args Hin. apply list_elem_of_singleton in Hin. discriminate.
  - destruct (ProxyOutcome_events _ _ _ _ _ _ Ho) as (evs & Ht & Hall).
    exists evs. split; [exact Ht|].
    rewrite Forall_forall in Hall.
    split; [|split; [|exact Hret]].
    + intros g args Hin. exact (Hall _ Hin).
    + intros g args Hin. split; [exact (Hall _ Hin) | reflexivity].
Qed.

Lemma loadCodeAsModule_trace code filename s :
  trace (loadCodeAsModule code filename s).2
    = trace s ++ [EvCompile (proxyModule filename) code filename].
Proof.
  unfold loadCodeAsModule, bind, log, lift, alloc, ret; simpl.
  fold (proxyModule filename).
  by destruct (compileCode (proxyModule filename) code filename).
Qed.

Lemma buildEvent_loadedByLoader n b p e : buildEvent n b p e -> loadedByLoader e.
Proof. destruct e; simpl; tauto. Qed.

Lemma proxyEvent_loadedByLoader n p c e : proxyEvent n p c e -> loadedByLoader e.
Proof. destruct e; simpl; tauto. Qed.

Lemma step_loadedByLoader s o :
  Forall loadedByLoader (trace s) -> Forall loadedByLoader (trace (step s o)).
Proof.
  intros H. destruct o as [p | n p c | n b p | d]; simpl; [| | |exact H].
  - destruct (DefinitionsOutcome_events EmptyString false _ _ _ _
                (getDefinitions_outcome p s)) as (evs & -> & Hall).
    apply Forall_app. split; [exact H|].
    eapply Forall_impl; [exact Hall|]. apply buildEvent_loadedByLoader.
  - destruct (ProxyOutcome_events _ _ _ _ _ _ (getProxy_outcome n p c s))
      as (evs & -> & Hall).
    apply Forall_app. split; [exact H|].
    eapply Forall_impl; [exact Hall|]. apply proxyEvent_loadedByLoader.
  - destruct (FactoryOutcome_events _ _ _ _ _ _
                (createProxyFactory_outcome n b p s)) as (evs & -> & Hall).
    apply Forall_app. split; [exact H|].
    eapply Forall_impl; [exact Hall|]. apply buildEvent_loadedByLoader.
Qed.

(** Whatever a client does, every module that was ever compiled had empty
    lookup paths when it ran. *)
Lemma compiled_modules_have_no_lookup_paths disk ops m code filename :
  EvCompile m code filename ∈ trace (client_run ops (initial disk)) ->
  m_paths m = Some [].
Proof.
  assert (forall s, Forall loadedByLoader (trace s) ->
            Forall loadedByLoader (trace (client_run ops s))) as H.
  { induction ops as [|o ops IH]; intros s Hs; simpl; [exact Hs|].
    apply IH, step_loadedByLoader, Hs. }
  specialize (H (initial disk) (Forall_nil_2 _)).
  rewrite Forall_forall in H. intros Hin.
  specialize (H _ Hin). simpl in H. by subst m.
Qed.


(** C8.  Whatever [getProxy(serviceName, P, context)] asks of the
    generator, it asks for [serviceName] with [preserveFunctionNames]
    false; and the factory behind every proxy it returns holds code the
    generator produced with [preserveFunctionNames] false from the
    definitions cached for [P]. *)
Theorem getProxy_never_preserves_names disk ops n p c :
  let s := client_run ops (initial disk) in
  let s' := (getProxy n p c s).2 in
  (exists evs,
     trace s' = trace s ++ evs
     /\ forall n' b d, EvGenerate n' b d ∈ evs -> n' = n /\ b = false)
  /\ (forall px, (getProxy n p c s).1 = Returns px ->
        exists f n0 d,
          proxiesCache s' !! p = Some f
          /\ proxy_factory px = fac_addr f
          /\ definitionsCache s' !! p = Some d
          /\ generateProxy n0 false (def_body d) = Returns (fac_code f)).
Proof.
  intros s s'.
  pose proof (getProxy_outcome n p c s) as Ho. fold s' in Ho.
  split.
  - destruct (ProxyOutcome_events _ _ _ _ _ _ Ho) as (evs & Ht & Hall).
    exists evs. split; [exact Ht|].
    rewrite Forall_forall in Hall.
    intros n' b d Hin. exact (Hall _ Hin).
  - intros px Hpx. rewrite Hpx in Ho.
    assert (Inv s') as HI.
    { eapply ProxyOutcome_Inv; [exact Ho | apply reachable_Inv]. }
    destruct (ProxyOutcome_returns _ _ _ _ _ _ Ho)
      as (f & Hf & Hfac & _).
    destruct (inv_factory _ HI p f Hf) as (n0 & d & Hd & Hg & _).
    by exists f, n0, d.
Qed.

Lemma getProxy_miss_cached n p c s f :
  proxiesCache s !! p = None ->
  proxiesCache (getProxy n p c s).2 !! p = Some f ->
  (createProxyFactory n false p s).1 = Returns f.
Proof.
  intros Hmiss. rewrite (getProxy_miss n p c s Hmiss).
  pose proof (createProxyFactory_outcome n false p s) as Ho.
  destruct (createProxyFactory n false p s) as [[g|e] s1]; simpl in *.
  - destruct (ApplyOutcome_advance _ _ _ _ _
                (applyFactory_outcome g c (withProxy p g s1))) as (k & ->).
    simpl. rewrite lookup_insert_eq. congruence.
  - destruct (FactoryOutcome_Frame _ _ _ _ _ _ Ho) as [_ ->]. congruence.
Qed.

(** C9.  The call of [getProxy] that puts a factory into the cache for
    [P] fixes the code: it is what the generator made for that call's
    [serviceName].  Every later [getProxy] for [P] applies that factory
    and does nothing else, so its [serviceName] argument has no effect:
    any other name gives the same result and the same store. *)
Theorem getProxy_first_serviceName_wins disk ops1 ops2 n1 n2 p c1 c2 f :
  let s := client_run ops1 (initial disk) in
  proxiesCache s !! p = None ->
  let s1 := (getProxy n1 p c1 s).2 in
  proxiesCache s1 !! p = Some f ->
  let s2 := client_run ops2 s1 in
  (exists d,
     definitionsCache s2 !! p = Some d
     /\ generateProxy n1 false (def_body d) = Returns (fac_code f))
  /\ getProxy n2 p c2 s2 = applyFactory f c2 s2
  /\ getProxy n2 p c2 s2 = getProxy n1 p c2 s2
  /\ trace (getProxy n2 p c2 s2).2
     = trace s2 ++ [EvApply (fac_addr f) [VContext c2]]
  /\ forall px, (getProxy n2 p c2 s2).1 = Returns px ->
       proxy_factory px = fac_addr f
       /\ applyCode (fac_code f) (fac_injected f) c2
          = Returns (proxy_surface px).
Proof.
  intros s Hmiss s1 Hf1 s2.
  pose proof (getProxy_miss_cached n1 p c1 s f Hmiss Hf1) as Hbuilt.
  pose proof (createProxyFactory_outcome n1 false p s) as Ho.
  rewrite Hbuilt in Ho.
  destruct (FactoryOutcome_returns _ _ _ _ _ _ Ho)
    as (_ & _ & _ & d & Hd & Hg).
  assert (Extends (createProxyFactory n1 false p s).2 s1) as Hext.
  { unfold s1. rewrite (getProxy_miss n1 p c1 s Hmiss).
    pose proof (FactoryOutcome_Frame _ _ _ _ _ _ Ho) as [_ Hp].
    destruct (createProxyFactory n1 false p s) as [r s0]; simpl in *.
    subst r.
    destruct (ApplyOutcome_advance _ _ _ _ _
                (applyFactory_outcome f c1 (withProxy p f s0))) as (k & ->).
    eapply Extends_trans; [|apply Extends_advance].
    apply Extends_withProxy. congruence. }
  assert (proxiesCache s2 !! p = Some f) as Hf2
    by apply (ext_proxies _ _ (client_run_Extends ops2 s1)), Hf1.
  split.
  { exists d. split; [|exact Hg].
    apply (ext_defs _ _ (client_run_Extends ops2 s1)).
    apply (ext_defs _ _ Hext), Hd. }
  split; [by apply getProxy_hit|].
  split; [by rewrite !(getProxy_hit _ p c2 s2 f Hf2)|].
  split; [by apply getProxy_hit_trace|].
  intros px Hpx. rewrite (getProxy_hit n2 p c2 s2 f Hf2) in Hpx.
  pose proof (applyFactory_outcome f c2 s2) as Ha. rewrite Hpx in Ha.
  by destruct (ApplyOutcome_returns _ _ _ _ _ Ha) as (_ & _ & ? & _ & ?).
Qed.

End Instrumentation.

(** * Keys *)

Section Keys.

Context {C : Collaborators}.

(** The outcome relations are functional. *)

Ltac same_call :=
  repeat match goal with x := _ |- _ => subst x end;
  repeat match goal with
         | H1 : ?a = ?b, H2 : ?a = ?c |- _ =>
             rewrite H1 in H2; inversion H2; subst; clear H2
         end.

Lemma DefinitionsOutcome_det p s r1 s1 r2 s2 :
  DefinitionsOutcome p s r1 s1 -> DefinitionsOutcome p s r2 s2 ->
  r1 = r2 /\ s1 = s2.
Proof. destruct 1; inversion 1; subst; same_call; try done. Qed.

Lemma BuildOutcome_det n b p d s r1 s1 r2 s2 :
  BuildOutcome n b p d s r1 s1 -> BuildOutcome n b p d s r2 s2 ->
  r1 = r2 /\ s1 = s2.
Proof. destruct 1; inversion 1; subst; same_call; try done. Qed.

Lemma ApplyOutcome_det f c s r1 s1 r2 s2 :
  ApplyOutcome f c s r1 s1 -> ApplyOutcome f c s r2 s2 ->
  r1 = r2 /\ s1 = s2.
Proof. destruct 1; inversion 1; subst; same_call; try done. Qed.

Lemma FactoryOutcome_det n b p s r1 s1 r2 s2 :
  FactoryOutcome n b p s r1 s1 -> FactoryOutcome n b p s r2 s2 ->
  r1 = r2 /\ s1 = s2.
Proof.
  destruct 1 as [e s0 Hd | d s0 r s1 Hd Hb];
    inversion 1 as [e' s0' Hd' | d' s0' r' s1' Hd' Hb']; subst;
    destruct (DefinitionsOutcome_det _ _ _ _ _ _ Hd Hd') as [E1 E2];
    simplify_eq; [done|].
  by eapply BuildOutcome_det.
Qed.

Lemma ProxyOutcome_det n p c s r1 s1 r2 s2 :
  ProxyOutcome n p c s r1 s1 -> ProxyOutcome n p c s r2 s2 ->
  r1 = r2 /\ s1 = s2.
Proof.
  destruct 1 as [f r s1 Hc Ha | e s1 Hc Hf | f s1 r s2' Hc Hf Ha];
    inversion 1 as [f' r' s1' Hc' Ha' | e' s1' Hc' Hf' | f' s1' r' s2'' Hc' Hf' Ha'];
    subst; simplify_eq.
  - by eapply ApplyOutcome_det.
  - destruct (FactoryOutcome_det _ _ _ _ _ _ _ _ Hf Hf') as [E1 E2].
    by simplify_eq.
  - destruct (FactoryOutcome_det _ _ _ _ _ _ _ _ Hf Hf') as [E1 E2].
    by simplify_eq.
  - destruct (FactoryOutcome_det _ _ _ _ _ _ _ _ Hf Hf') as [E1 E2].
    by simplify_eq.
  - destruct (FactoryOutcome_det _ _ _ _ _ _ _ _ Hf Hf') as [E1 E2].
    simplify_eq. by eapply ApplyOutcome_det.
Qed.

(** Only the entries under the path matter to a call. *)

Ltac store_simpl :=
  unfold advance, withDefinitions, withProxy, setFiles,
    definitionsCache_set, proxiesCache_set in *; simpl in *.

Lemma SameAt_advance p k evs evs' s t :
  SameAt p s t -> SameAt p (advance k evs s) (advance k evs' t).
Proof. intros [Hf Hn Hd Hp]. split; store_simpl; auto. Qed.

Lemma SameAt_withDefinitions p d s t :
  SameAt p s t -> SameAt p (withDefinitions p d s) (withDefinitions p d t).
Proof.
  intros [Hf Hn Hd Hp]. split; store_simpl; auto.
  by rewrite !lookup_insert_eq.
Qed.

Lemma SameAt_withProxy p f s t :
  SameAt p s t -> SameAt p (withProxy p f s) (withProxy p f t).
Proof.
  intros [Hf Hn Hd Hp]. split; store_simpl; auto.
  by rewrite !lookup_insert_eq.
Qed.

Lemma DefinitionsOutcome_transfer p s r s' t :
  DefinitionsOutcome p s r s' -> SameAt p s t ->
  exists t', DefinitionsOutcome p t r t' /\ SameAt p s' t'.
Proof.
  intros H HS. pose proof HS as [Hf Hn Hd Hp].
  destruct H as [d Hc | e Hc Hr | rp Hc Hr Hfile | rp src e Hc Hr Hfile Hparse
                | rp src body Hc Hr Hfile Hparse];
    rewrite ?Hd, ?Hf in *.
  - exists t. split; [by apply DefsCached | done].
  - exists t. split; [by apply DefsUnresolved | done].
  - exists t. split; [by eapply DefsUnreadable | done].
  - eexists. split; [by apply DefsRejected|]. by apply SameAt_advance.
  - subst d. rewrite Hn. eexists.
    split; [by apply (DefsParsed p t rp src body)|].
    by apply SameAt_withDefinitions, SameAt_advance.
Qed.

Lemma BuildOutcome_transfer n b p d s r s' t :
  BuildOutcome n b p d s r s' -> SameAt p s t ->
  exists t', BuildOutcome n b p d t r t' /\ SameAt p s' t'.
Proof.
  intros H HS. pose proof HS as [Hf Hn Hd Hp].
  destruct H; rewrite ?Hn; eexists;
    (split; [by econstructor | by apply SameAt_advance]).
Qed.

Lemma ApplyOutcome_transfer p f c s r s' t :
  ApplyOutcome f c s r s' -> SameAt p s t ->
  exists t', ApplyOutcome f c t r t' /\ SameAt p s' t'.
Proof.
  intros H HS. pose proof HS as [Hf Hn Hd Hp].
  destruct H; rewrite ?Hn; eexists;
    (split; [by econstructor | by apply SameAt_advance]).
Qed.

Lemma FactoryOutcome_transfer n b p s r s' t :
  FactoryOutcome n b p s r s' -> SameAt p s t ->
  exists t', FactoryOutcome n b p t r t' /\ SameAt p s' t'.
Proof.
  intros H HS. destruct H as [e s0 Hd | d s0 r s1 Hd Hb].
  - destruct (DefinitionsOutcome_transfer _ _ _ _ _ Hd HS) as (t0 & H0 & S0).
    exists t0. split; [by apply FactoryNoDefinitions | done].
  - destruct (DefinitionsOutcome_transfer _ _ _ _ _ Hd HS) as (t0 & H0 & S0).
    destruct (BuildOutcome_transfer _ _ _ _ _ _ _ _ Hb S0) as (t1 & H1 & S1).
    exists t1. split; [by eapply FactoryBuilt | done].
Qed.

Lemma ProxyOutcome_transfer n p c s r s' t :
  ProxyOutcome n p c s r s' -> SameAt p s t ->
  exists t', ProxyOutcome n p c t r t' /\ SameAt p s' t'.
Proof.
  intros H HS. pose proof HS as [_ _ _ Hp].
  destruct H as [f r s1 Hc Ha | e s1 Hc Hf | f s1 r s2 Hc Hf Ha];
    rewrite Hp in Hc.
  - destruct (ApplyOutcome_transfer p _ _ _ _ _ _ Ha HS) as (t1 & H1 & S1).
    exists t1. split; [by eapply ProxyHit | done].
  - destruct (FactoryOutcome_transfer _ _ _ _ _ _ _ Hf HS) as (t1 & H1 & S1).
    exists t1. split; [by apply ProxyNoFactory | done].
  - destruct (FactoryOutcome_transfer _ _ _ _ _ _ _ Hf HS) as (t1 & H1 & S1).
    destruct (ApplyOutcome_transfer p _ _ _ _ _ _ Ha
                (SameAt_withProxy p f _ _ S1)) as (t2 & H2 & S2).
    exists t2. split; [by eapply ProxyMiss | done].
Qed.

Lemma getDefinitions_local p s t :
  SameAt p s t -> (getDefinitions p s).1 = (getDefinitions p t).1.
Proof.
  intros HS.
  destruct (DefinitionsOutcome_transfer _ _ _ _ _
              (getDefinitions_outcome p s) HS) as (t' & Ht & _).
  by destruct (DefinitionsOutcome_det _ _ _ _ _ _ Ht
                 (getDefinitions_outcome p t)).
Qed.

Lemma createProxyFactory_local n b p s t :
  SameAt p s t ->
  (createProxyFactory n b p s).1 = (createProxyFactory n b p t).1.
Proof.
  intros HS.
  destruct (FactoryOutcome_transfer _ _ _ _ _ _ _
              (createProxyFactory_outcome n b p s) HS) as (t' & Ht & _).
  by destruct (FactoryOutcome_det _ _ _ _ _ _ _ _ Ht
                 (createProxyFactory_outcome n b p t)).
Qed.

Lemma getProxy_local n p c s t :
  SameAt p s t -> (getProxy n p c s).1 = (getProxy n p c t).1.
Proof.
  intros HS.
  destruct (ProxyOutcome_transfer _ _ _ _ _ _ _
              (getProxy_outcome n p c s) HS) as (t' & Ht & _).
  by destruct (ProxyOutcome_det _ _ _ _ _ _ _ _ Ht
                 (getProxy_outcome n p c t)).
Qed.

(** C6, as the code has it.  The name under which the generated code is
    loaded is made from the definition path, [parsePath(P).name +
    'Proxy.js'], whatever the service name, the flag and the definitions
    are; it becomes the module's [id] and [filename] under [__dirname]
    and is no key of either cache.  The three exported functions read and
    write both caches under the path they were given: entries under other
    keys are left alone, and have no influence on the result. *)
Theorem module_named_by_path_caches_keyed_by_path n b p c s :
  (exists evs,
     trace (createProxyFactory n b p s).2 = trace s ++ evs
     /\ forall m code filename, EvCompile m code filename ∈ evs ->
          filename = parsePathName p +:+ "Proxy.js"
          /\ m_id m = Some (joinDirname filename)
          /\ m_filename m = Some (joinDirname filename))
  /\ Frame p s (getDefinitions p s).2
  /\ Frame p s (createProxyFactory n b p s).2
  /\ Frame p s (getProxy n p c s).2
  /\ forall t, SameAt p s t ->
       (getDefinitions p s).1 = (getDefinitions p t).1
       /\ (createProxyFactory n b p s).1 = (createProxyFactory n b p t).1
       /\ (getProxy n p c s).1 = (getProxy n p c t).1.
Proof.
  split.
  { destruct (FactoryOutcome_events _ _ _ _ _ _
                (createProxyFactory_outcome n b p s)) as (evs & Ht & Hall).
    exists evs. split; [exact Ht|].
    rewrite Forall_forall in Hall.
    intros m code filename Hin. destruct (Hall _ Hin) as [-> ->].
    by repeat split. }
  split; [eapply DefinitionsOutcome_Frame, getDefinitions_outcome|].
  split; [eapply FactoryOutcome_Frame, createProxyFactory_outcome|].
  split; [eapply ProxyOutcome_Frame, getProxy_outcome|].
  intros t HS. split; [by apply getDefinitions_local|].
  split; [by apply createProxyFactory_local | by apply getProxy_local].
Qed.

End Keys.

(** * Paths as given *)

Section Paths.

Context {C : Collaborators}.

Lemma Extends_trace_elem s s' e : Extends s s' -> e ∈ trace s -> e ∈ trace s'.
Proof.
  intros [_ _ _ [evs ->]] H. apply elem_of_app. by left.
Qed.

Lemma FactoryOutcome_parsed n b p s f s' :
  definitionsCache s !! p = None ->
  FactoryOutcome n b p s (Returns f) s' ->
  exists d rp src,
    definitionsCache s' !! p = Some d
    /\ def_addr d = next_addr s
    /\ resolveFilename (files s) p = Returns rp
    /\ files s !! rp = Some src
    /\ parseServiceDefinition rp src = Returns (def_body d)
    /\ EvParse p rp src (Some (def_addr d)) ∈ trace s'.
Proof.
  intros Hmiss. inversion 1 as [| d s0 r s1 Hd Hb]; subst.
  destruct (DefinitionsOutcome_returns _ _ _ _ Hd)
    as [Hc [[Hhit _] | (_ & Ha & _ & rp & src & Hr & Hf & Hp & Ht)]];
    [congruence|].
  destruct (BuildOutcome_advance _ _ _ _ _ _ _ Hb) as (k & evs & -> & _).
  exists d, rp, src. repeat split; auto.
  simpl. rewrite Ht. apply elem_of_app. left.
  apply elem_of_app. right. by apply list_elem_of_singleton.
Qed.

Lemma ProxyOutcome_miss_returns n p c s px s' :
  proxiesCache s !! p = None ->
  ProxyOutcome n p c s (Returns px) s' ->
  exists f s0 k,
    FactoryOutcome n false p s (Returns f) s0
    /\ s' = advance k [EvApply (fac_addr f) [VContext c]] (withProxy p f s0)
    /\ proxy_factory px = fac_addr f.
Proof.
  intros Hmiss.
  inversion 1 as [f r s1 Hc Ha | | f s1 r s2 Hc Hf Ha]; subst;
    [congruence|].
  destruct (ApplyOutcome_returns _ _ _ _ _ Ha) as (_ & _ & Hfac & _).
  destruct (ApplyOutcome_advance _ _ _ _ _ Ha) as (k & ->).
  by exists f, s1, k.
Qed.

Lemma Inv_no_definitions_no_factory s p :
  Inv s -> definitionsCache s !! p = None -> proxiesCache s !! p = None.
Proof.
  intros HI Hd. destruct (proxiesCache s !! p) as [f|] eqn:Hf; [|done].
  destruct (inv_factory _ HI p f Hf) as (n & d & Hd' & _). congruence.
Qed.

(** What a first [getProxy] for a path leaves behind. *)
Lemma getProxy_first n p c s px :
  Inv s ->
  definitionsCache s !! p = None ->
  (getProxy n p c s).1 = Returns px ->
  let s' := (getProxy n p c s).2 in
  exists d f rp src,
    definitionsCache s' !! p = Some d
    /\ proxiesCache s' !! p = Some f
    /\ def_addr d = next_addr s
    /\ next_addr s <= fac_addr f
    /\ proxy_factory px = fac_addr f
    /\ resolveFilename (files s) p = Returns rp
    /\ files s !! rp = Some src
    /\ parseServiceDefinition rp src = Returns (def_body d)
    /\ EvParse p rp src (Some (def_addr d)) ∈ trace s'.
Proof.
  intros HI Hmiss Hret s'.
  pose proof (getProxy_outcome n p c s) as Ho.
  rewrite Hret in Ho. fold s' in Ho.
  destruct (ProxyOutcome_miss_returns _ _ _ _ _ _
              (Inv_no_definitions_no_factory s p HI Hmiss) Ho)
    as (f & s0 & k & Hf & Hs' & Hfac).
  destruct (FactoryOutcome_parsed _ _ _ _ _ _ Hmiss Hf)
    as (d & rp & src & Hd & Ha & Hr & Hfile & Hp & Hev).
  destruct (FactoryOutcome_returns _ _ _ _ _ _ Hf) as [[Hlo _] _].
  exists d, f, rp, src. rewrite Hs'. simpl.
  rewrite lookup_insert_eq. repeat split; auto.
  apply elem_of_app. by left.
Qed.

(** C10.  The caches are keyed by the string the caller passed; the
    resolved file name is computed on a miss only and is no key.  Two
    different strings that resolve to one file are two keys: each first
    [getProxy] runs the parser on that file, and afterwards the two
    paths hold two Definitions objects (with the payload the parser
    gives for the file) and two factories. *)
Theorem distinct_paths_distinct_entries
    disk ops n1 n2 c1 c2 p1 p2 r px1 px2 :
  let s := client_run ops (initial disk) in
  p1 <> p2 ->
  resolveFilename (files s) p1 = Returns r ->
  resolveFilename (files s) p2 = Returns r ->
  definitionsCache s !! p1 = None ->
  definitionsCache s !! p2 = None ->
  (getProxy n1 p1 c1 s).1 = Returns px1 ->
  let s1 := (getProxy n1 p1 c1 s).2 in
  (getProxy n2 p2 c2 s1).1 = Returns px2 ->
  let s2 := (getProxy n2 p2 c2 s1).2 in
  exists src d1 d2 f1 f2,
    files s !! r = Some src
    /\ definitionsCache s2 !! p1 = Some d1
    /\ definitionsCache s2 !! p2 = Some d2
    /\ def_addr d1 <> def_addr d2
    /\ parseServiceDefinition r src = Returns (def_body d1)
    /\ parseServiceDefinition r src = Returns (def_body d2)
    /\ EvParse p1 r src (Some (def_addr d1)) ∈ trace s2
    /\ EvParse p2 r src (Some (def_addr d2)) ∈ trace s2
    /\ proxiesCache s2 !! p1 = Some f1
    /\ proxiesCache s2 !! p2 = Some f2
    /\ fac_addr f1 <> fac_addr f2
    /\ proxy_factory px1 = fac_addr f1
    /\ proxy_factory px2 = fac_addr f2.
Proof.
  intros s Hne Hr1 Hr2 Hm1 Hm2 Hret1 s1 Hret2 s2.
  assert (Inv s) as HI by apply reachable_Inv.
  pose proof (getProxy_outcome n1 p1 c1 s) as Ho1. fold s1 in Ho1.
  assert (Inv s1) as HI1 by (eapply ProxyOutcome_Inv; eauto).
  pose proof (ProxyOutcome_Frame _ _ _ _ _ _ Ho1) as [Hfiles Hfd Hfp].
  pose proof (getProxy_outcome n2 p2 c2 s1) as Ho2. fold s2 in Ho2.
  pose proof (ProxyOutcome_Extends _ _ _ _ _ _ Ho2) as Hext.
  destruct (getProxy_first n1 p1 c1 s px1 HI Hm1 Hret1)
    as (d1 & f1 & rp1 & src1 & Hd1 & Hf1 & Ha1 & Hlo1 & Hfac1
        & Hrp1 & Hsrc1 & Hp1 & Hev1).
  fold s1 in Hd1, Hf1, Hev1.
  assert (definitionsCache s1 !! p2 = None) as Hm2'
    by (rewrite Hfd; auto).
  destruct (getProxy_first n2 p2 c2 s1 px2 HI1 Hm2' Hret2)
    as (d2 & f2 & rp2 & src2 & Hd2 & Hf2 & Ha2 & Hlo2 & Hfac2
        & Hrp2 & Hsrc2 & Hp2 & Hev2).
  fold s2 in Hd2, Hf2, Hev2.
  rewrite Hfiles in Hrp2, Hsrc2.
  assert (rp1 = r) as -> by congruence.
  assert (rp2 = r) as -> by congruence.
  assert (src2 = src1) as -> by congruence.
  pose proof (inv_defs_addr _ HI1 p1 d1 Hd1).
  pose proof (inv_fac_addr _ HI1 p1 f1 Hf1).
  exists src1, d1, d2, f1, f2.
  repeat split; auto; try lia.
  - by apply (ext_defs _ _ Hext).
  - by apply (Extends_trace_elem s1 s2).
  - by apply (ext_proxies _ _ Hext).
Qed.

End Paths.

(** * Where the cached objects come from *)

Section Soundness.

Context {C : Collaborators}.

Ltac store_simpl :=
  unfold advance, withDefinitions, withProxy, setFiles,
    definitionsCache_set, proxiesCache_set in *; simpl in *.

Lemma injections_app a tr evs :
  injections a (tr ++ evs) = injections a tr + injections a evs.
Proof. apply countEvents_app. Qed.

Lemma Sound_initial disk : Sound (initial disk).
Proof.
  split; simpl; try reflexivity;
    try (intros; match goal with
                 | H : ∅ !! _ = Some _ |- _ => by rewrite lookup_empty in H
                 end).
Qed.

Lemma Sound_setFiles disk s : Sound s -> Sound (setFiles disk s).
Proof. intros [H1 H2 H3 H4 H5 H6 H7]. by split. Qed.

Lemma Sound_advance k evs s :
  Inv s -> Sound s ->
  (forall a, a < next_addr s \/ k + next_addr s <= a -> injections a evs = 0) ->
  Sound (advance k evs s).
Proof.
  intros HI [H1 H2 H3 H4 H5 H6 H7] Hevs. split; store_simpl; auto.
  - intros p d Hd. destruct (H1 p d Hd) as (rp & src & Hin & Hp).
    exists rp, src. split; [|exact Hp]. apply elem_of_app. by left.
  - intros a Ha. rewrite injections_app, H5, Hevs; lia.
  - intros p f Hf. rewrite injections_app, (H6 p f Hf), Hevs; [lia|].
    left. exact (inv_fac_addr _ HI p f Hf).
Qed.

Lemma Sound_withDefinitions p d s :
  Sound s ->
  definitionsCache s !! p = None ->
  (exists rp src,
     EvParse p rp src (Some (def_addr d)) ∈ trace s
     /\ parseServiceDefinition rp src = Returns (def_body d)) ->
  (forall q e, definitionsCache s !! q = Some e -> def_addr e <> def_addr d) ->
  (forall q f, proxiesCache s !! q = Some f -> fac_addr f <> def_addr d) ->
  Sound (withDefinitions p d s).
Proof.
  intros [H1 H2 H3 H4 H5 H6 H7] Hnone Hev Hdefs Hfacs.
  split; store_simpl; auto.
  - intros q e. destruct (decide (p = q)) as [<-|Hne].
    + rewrite lookup_insert_eq. by intros [= <-].
    + rewrite lookup_insert_ne by done. apply H1.
  - intros q1 q2 e1 e2.
    destruct (decide (p = q1)) as [<-|Hne1];
      destruct (decide (p = q2)) as [<-|Hne2];
      rewrite ?lookup_insert_eq, ?lookup_insert_ne by done; auto.
    + intros [= <-] He2 Heq. by destruct (Hdefs _ _ He2).
    + intros He1 [= <-] Heq. by destruct (Hdefs _ _ He1).
    + apply H2.
  - intros q1 q2 e f.
    destruct (decide (p = q1)) as [<-|Hne1];
      rewrite ?lookup_insert_eq, ?lookup_insert_ne by done.
    + intros [= <-] Hf Heq. by destruct (Hfacs _ _ Hf).
    + apply H4.
Qed.

Lemma Sound_withProxy p f s :
  Sound s ->
  proxiesCache s !! p = None ->
  (forall q e, definitionsCache s !! q = Some e -> def_addr e <> fac_addr f) ->
  (forall q g, proxiesCache s !! q = Some g -> fac_addr g <> fac_addr f) ->
  injections (fac_addr f) (trace s) = 1 ->
  compileCode (proxyModule (proxyFilename p)) (fac_code f) (proxyFilename p)
    = Returns tt ->
  injectCode (fac_code f) injectedArgs = Returns tt ->
  Sound (withProxy p f s).
Proof.
  intros [H1 H2 H3 H4 H5 H6 H7] Hnone Hdefs Hfacs Hinj Hc Hi.
  split; store_simpl; auto.
  - intros q1 q2 g1 g2.
    destruct (decide (p = q1)) as [<-|Hne1];
      destruct (decide (p = q2)) as [<-|Hne2];
      rewrite ?lookup_insert_eq, ?lookup_insert_ne by done; auto.
    + intros [= <-] Hg2 Heq. by destruct (Hfacs _ _ Hg2).
    + intros Hg1 [= <-] Heq. by destruct (Hfacs _ _ Hg1).
    + apply H3.
  - intros q1 q2 e g He.
    destruct (decide (p = q2)) as [<-|Hne2];
      rewrite ?lookup_insert_eq, ?lookup_insert_ne by done.
    + intros [= <-]. by apply (Hdefs q1).
    + intros Hg. exact (H4 _ _ _ _ He Hg).
  - intros q g. destruct (decide (p = q)) as [<-|Hne].
    + rewrite lookup_insert_eq. by intros [= <-].
    + rewrite lookup_insert_ne by done. apply H6.
  - intros q g. destruct (decide (p = q)) as [<-|Hne].
    + rewrite lookup_insert_eq. by intros [= <-].
    + rewrite lookup_insert_ne by done. apply H7.
Qed.

Lemma DefinitionsOutcome_Sound p s r s' :
  DefinitionsOutcome p s r s' -> Inv s -> Sound s -> Sound s'.
Proof.
  destruct 1 as [d Hc | e Hc Hr | rp Hc Hr Hfile | rp src e Hc Hr Hfile Hparse
                | rp src body Hc Hr Hfile Hparse]; intros HI HS; auto.
  - by apply Sound_advance.
  - apply Sound_withDefinitions.
    + by apply Sound_advance.
    + exact Hc.
    + exists rp, src. split; [|exact Hparse]. simpl.
      apply elem_of_app. right. by apply list_elem_of_singleton.
    + intros q e He. pose proof (inv_defs_addr _ HI q e He). simpl. lia.
    + intros q f Hf. pose proof (inv_fac_addr _ HI q f Hf). simpl. lia.
Qed.

Lemma BuildOutcome_injections n b p d s r s' :
  BuildOutcome n b p d s r s' ->
  exists k evs,
    s' = advance k evs s
    /\ (forall a, a < next_addr s \/ k + next_addr s <= a ->
          injections a evs = 0)
    /\ (forall f, r = Returns f ->
          k = 1
          /\ injections (fac_addr f) evs = 1
          /\ compileCode (proxyModule (proxyFilename p)) (fac_code f)
               (proxyFilename p) = Returns tt
          /\ injectCode (fac_code f) injectedArgs = Returns tt).
Proof.
  destruct 1; eexists _, _; (split; [reflexivity|]); (split; [|try done]).
  - by intros a _.
  - by intros a _.
  - intros a Ha. unfold injections; simpl.
    rewrite bool_decide_eq_false_2; [done | lia].
  - intros a Ha. unfold injections; simpl.
    rewrite bool_decide_eq_false_2; [done | lia].
  - intros f [= <-]. simpl. repeat split; auto.
    unfold injections; simpl. by rewrite bool_decide_eq_true_2.
Qed.

Lemma BuildOutcome_Sound n b p d s r s' :
  BuildOutcome n b p d s r s' -> Inv s -> Sound s -> Sound s'.
Proof.
  intros Hb HI HS.
  destruct (BuildOutcome_injections _ _ _ _ _ _ _ Hb) as (k & evs & -> & H0 & _).
  by apply Sound_advance.
Qed.

Lemma FactoryOutcome_Sound n b p s r s' :
  FactoryOutcome n b p s r s' -> Inv s -> Sound s -> Sound s'.
Proof.
  destruct 1 as [e s0 Hd | d s0 r s1 Hd Hb]; intros HI HS.
  - by eapply DefinitionsOutcome_Sound.
  - eapply BuildOutcome_Sound; [exact Hb | |].
    + by eapply DefinitionsOutcome_Inv.
    + by eapply DefinitionsOutcome_Sound.
Qed.

Lemma injections_apply a f c : injections a [EvApply f c] = 0.
Proof. reflexivity. Qed.

Lemma ProxyOutcome_Sound n p c s r s' :
  ProxyOutcome n p c s r s' -> Inv s -> Sound s -> Sound s'.
Proof.
  destruct 1 as [f r s1 Hc Ha | e s1 Hc Hf | f s1 r s2 Hc Hf Ha];
    intros HI HS.
  - destruct (ApplyOutcome_advance _ _ _ _ _ Ha) as (k & ->).
    apply Sound_advance; auto.
  - by eapply FactoryOutcome_Sound.
  - destruct (ApplyOutcome_advance _ _ _ _ _ Ha) as (k & ->).
    destruct (FactoryOutcome_returns _ _ _ _ _ _ Hf)
      as (Haddr & Hi & Hn & d' & Hd' & Hg).
    pose proof (FactoryOutcome_Inv _ _ _ _ _ _ Hf HI) as HI1.
    destruct (FactoryOutcome_Frame _ _ _ _ _ _ Hf) as [_ Hp].
    inversion Hf as [| d s0 r0 s1' Hd Hb]; subst.
    pose proof (DefinitionsOutcome_Inv _ _ _ _ Hd HI) as HI0.
    pose proof (DefinitionsOutcome_Sound _ _ _ _ Hd HI HS) as HS0.
    destruct (BuildOutcome_injections _ _ _ _ _ _ _ Hb)
      as (k' & evs & -> & H0 & Hret).
    destruct (Hret f eq_refl) as (-> & Hone & Hcomp & Hinj).
    destruct (BuildOutcome_returns _ _ _ _ _ _ _ Hb) as (Hfa & _).
    apply Sound_advance; auto.
    + eapply Inv_withProxy; eauto. simpl. lia.
    + apply Sound_withProxy; auto.
      * by apply Sound_advance.
      * by rewrite Hp.
      * intros q e He. simpl in He.
        pose proof (inv_defs_addr _ HI0 q e He). lia.
      * intros q g Hg'. simpl in Hg'.
        pose proof (inv_fac_addr _ HI0 q g Hg'). lia.
      * simpl. rewrite injections_app, Hone.
        rewrite (snd_inject_fresh _ HS0); [done | lia].
Qed.

Lemma step_Sound s o : Inv s -> Sound s -> Sound (step s o).
Proof.
  destruct o; simpl.
  - eapply DefinitionsOutcome_Sound, getDefinitions_outcome.
  - eapply ProxyOutcome_Sound, getProxy_outcome.
  - eapply FactoryOutcome_Sound, createProxyFactory_outcome.
  - intros _. apply Sound_setFiles.
Qed.

Lemma client_run_Sound ops s : Inv s -> Sound s -> Sound (client_run ops s).
Proof.
  revert s. induction ops as [|o ops IH]; intros s HI HS; simpl; auto.
  apply IH; [by apply step_Inv | by apply step_Sound].
Qed.

Lemma reachable_Sound disk ops : Sound (client_run ops (initial disk)).
Proof. apply client_run_Sound; [apply Inv_initial | apply Sound_initial]. Qed.

End Soundness.

(** * Further behaviour of the three exported functions *)

Section Behaviour.

Context {C : Collaborators}.

Lemma parserCalls_build_other n b p q tr evs :
  q <> p -> Forall (buildEvent n b p) evs ->
  parserCalls q (tr ++ evs) = parserCalls q tr.
Proof.
  intros Hne Hall. unfold parserCalls. rewrite countEvents_app.
  rewrite (countEvents_none (isParserCall q) evs); [lia|].
  eapply Forall_impl; [exact Hall|].
  intros [p' rp src out| | | |]; simpl; try done.
  intros ->. by apply bool_decide_eq_false_2.
Qed.

Lemma parserCalls_proxy_other n p c q tr evs :
  q <> p -> Forall (proxyEvent n p c) evs ->
  parserCalls q (tr ++ evs) = parserCalls q tr.
Proof.
  intros Hne Hall. unfold parserCalls. rewrite countEvents_app.
  rewrite (countEvents_none (isParserCall q) evs); [lia|].
  eapply Forall_impl; [exact Hall|].
  intros [p' rp src out| | | |]; simpl; try done.
  intros ->. by apply bool_decide_eq_false_2.
Qed.

Lemma getDefinitions_hit p s d :
  definitionsCache s !! p = Some d -> getDefinitions p s = (Returns d, s).
Proof.
  intros H.
  destruct (DefinitionsOutcome_det _ _ _ _ _ _ (DefsCached p s d H)
              (getDefinitions_outcome p s)) as [E1 E2].
  destruct (getDefinitions p s); simpl in *. congruence.
Qed.

(** X1.  [createProxyFactory] and [getProxy] go through the registry: the
    generator is handed the very object [getDefinitions] returns for the
    path, and that object is what [getDefinitions] returns afterwards,
    without touching the store.  When the definitions are cached already,
    neither function runs the parser for any path, and
    [createProxyFactory] leaves [definitionsCache] as it is. *)
Theorem builders_share_the_registry n b p c s :
  let s1 := (createProxyFactory n b p s).2 in
  (forall d, (getDefinitions p s).1 = Returns d ->
     getDefinitions p s1 = (Returns d, s1)
     /\ EvGenerate n b d ∈ trace s1)
  /\ (forall d, definitionsCache s !! p = Some d ->
        definitionsCache s1 = definitionsCache s
        /\ forall q,
             parserCalls q (trace s1) = parserCalls q (trace s)
             /\ parserCalls q (trace (getProxy n p c s).2)
                = parserCalls q (trace s)).
Proof.
  intros s1. subst s1. split.
  - intros d Hd.
    pose proof (getDefinitions_outcome p s) as Ho. rewrite Hd in Ho.
    pose proof (build_outcome n b p s) as Hb.
    destruct (getDefinitions p s) as [r s0]; simpl in *. subst r.
    destruct (DefinitionsOutcome_returns _ _ _ _ Ho) as [Hc _].
    destruct (BuildOutcome_advance _ _ _ _ _ _ _ Hb) as (k & evs & Hs1 & _).
    split.
    + apply getDefinitions_hit. by rewrite Hs1.
    + destruct Hb; simpl; apply elem_of_app; right; apply list_elem_of_here.
  - intros d Hd.
    pose proof (createProxyFactory_outcome n b p s) as Ho.
    split.
    + destruct (createProxyFactory n b p s) as [r s1]; simpl in *.
      inversion Ho as [e s0 Hdo | d0 s0 r0 s1' Hdo Hb]; subst.
      * inversion Hdo; subst; congruence.
      * destruct (BuildOutcome_advance _ _ _ _ _ _ _ Hb)
          as (k & evs & -> & _).
        inversion Hdo; subst; [done | congruence].
    + intros q. split.
      * destruct (decide (q = p)) as [->|Hne].
        -- eapply FactoryOutcome_no_reparse; [exact Ho | by exists d].
        -- destruct (FactoryOutcome_events _ _ _ _ _ _ Ho) as (evs & -> & H).
           by eapply parserCalls_build_other.
      * pose proof (getProxy_outcome n p c s) as Hp.
        destruct (decide (q = p)) as [->|Hne].
        -- eapply ProxyOutcome_no_reparse; [exact Hp | by exists d].
        -- destruct (ProxyOutcome_events _ _ _ _ _ _ Hp) as (evs & -> & H).
           by eapply parserCalls_proxy_other.
Qed.

(** X2.  [getDefinitions] runs the parser at most once per call, only on a
    miss, and only on the resolved file name together with the text that
    file holds at the time of the call.  When the path cannot be resolved
    or the resolved file cannot be read, the parser is not reached and the
    store is exactly as before. *)
Theorem parser_gets_the_resolved_file p s :
  (forall e,
     definitionsCache s !! p = None ->
     resolveFilename (files s) p = Throws e
     \/ (exists rp, resolveFilename (files s) p = Returns rp
                    /\ files s !! rp = None /\ e = Raised "ENOENT") ->
     getDefinitions p s = (Throws e, s))
  /\ exists evs,
       trace (getDefinitions p s).2 = trace s ++ evs
       /\ (evs = []
           \/ exists rp src,
                evs = [EvParse p rp src
                         (def_addr <$> returned (getDefinitions p s).1)]
                /\ definitionsCache s !! p = None
                /\ resolveFilename (files s) p = Returns rp
                /\ files s !! rp = Some src).
Proof.
  pose proof (getDefinitions_outcome p s) as Ho.
  destruct (getDefinitions p s) as [r s']; simpl in *.
  split.
  - intros e Hmiss Hcase.
    inversion Ho; subst; try congruence;
      destruct Hcase as [Hr | (rp & Hr & Hf & ->)]; congruence.
  - inversion Ho; subst; simpl;
      try (exists []; split; [by rewrite app_nil_r | by left]).
    + eexists. split; [reflexivity|]. right. by exists resolvedPath, source.
    + eexists. split; [reflexivity|]. right. by exists resolvedPath, source.
Qed.

(** X3.  A failure of [getDefinitions] is not remembered: once the files
    are such that the path resolves, the file reads and the parser accepts
    it, the next call returns the definitions parsed from the new text and
    caches them. *)
Theorem getDefinitions_retry_after_fix p s e disk rp src body :
  (getDefinitions p s).1 = Throws e ->
  resolveFilename disk p = Returns rp ->
  disk !! rp = Some src ->
  parseServiceDefinition rp src = Returns body ->
  let s1 := setFiles disk (getDefinitions p s).2 in
  exists d,
    (getDefinitions p s1).1 = Returns d
    /\ def_body d = body
    /\ definitionsCache (getDefinitions p s1).2 !! p = Some d.
Proof.
  intros Hthrow Hr Hf Hp s1.
  pose proof (getDefinitions_outcome p s) as Ho. rewrite Hthrow in Ho.
  destruct (DefinitionsOutcome_throws _ _ _ _ Ho) as (Hmiss & _ & Hsame & _).
  assert (definitionsCache s1 !! p = None) as Hmiss1
    by (unfold s1; simpl; by rewrite Hsame).
  pose proof (DefsParsed p s1 rp src body Hmiss1 Hr Hf Hp) as Hok.
  destruct (DefinitionsOutcome_det _ _ _ _ _ _ Hok
              (getDefinitions_outcome p s1)) as [E1 E2].
  eexists. rewrite <- E1, <- E2. split; [reflexivity|]. split; [reflexivity|].
  simpl. apply lookup_insert_eq.
Qed.

(** X4.  [getProxy] stores a new factory before it applies it: when the
    application throws, the error leaves [getProxy] and the factory is
    cached all the same, so every later call for the path applies that
    factory without building another. *)
Theorem failed_application_keeps_the_factory n p c s f e :
  proxiesCache s !! p = None ->
  (createProxyFactory n false p s).1 = Returns f ->
  applyCode (fac_code f) (fac_injected f) c = Throws e ->
  let s1 := (getProxy n p c s).2 in
  (getProxy n p c s).1 = Throws e
  /\ proxiesCache s1 !! p = Some f
  /\ forall n' c', getProxy n' p c' s1 = applyFactory f c' s1.
Proof.
  intros Hmiss Hbuilt Happ s1. unfold s1.
  rewrite (getProxy_miss n p c s Hmiss).
  destruct (createProxyFactory n false p s) as [r s0]; simpl in Hbuilt.
  subst r.
  pose proof (applyFactory_outcome f c (withProxy p f s0)) as Ha.
  destruct (applyFactory f c (withProxy p f s0)) as [r s2]; simpl in *.
  assert (proxiesCache s2 !! p = Some f) as Hcached.
  { destruct (ApplyOutcome_advance _ _ _ _ _ Ha) as (k & ->).
    simpl. apply lookup_insert_eq. }
  split; [|split; [exact Hcached|]].
  - inversion Ha; subst; congruence.
  - intros n' c'. by apply getProxy_hit.
Qed.

(** X5.  Whatever [getProxy] throws was thrown by a collaborator: module
    resolution, the file read, the parser, the generator, the loader, the
    [inject] export or the application of the factory.  The two
    [invariant(... != null)] checks of [main.js] never fail. *)
Theorem thrown_errors_come_from_collaborators n p c s e :
  (getProxy n p c s).1 = Throws e ->
  resolveFilename (files s) p = Throws e
  \/ (exists rp, resolveFilename (files s) p = Returns rp
                 /\ files s !! rp = None /\ e = Raised "ENOENT")
  \/ (exists rp src, resolveFilename (files s) p = Returns rp
                     /\ files s !! rp = Some src
                     /\ parseServiceDefinition rp src = Throws e)
  \/ (exists d, (getDefinitions p s).1 = Returns d
                /\ generateProxy n false (def_body d) = Throws e)
  \/ (exists code,
        compileCode (proxyModule (proxyFilename p)) code (proxyFilename p)
          = Throws e)
  \/ (exists code, injectCode code injectedArgs = Throws e)
  \/ (exists f, proxiesCache (getProxy n p c s).2 !! p = Some f
                /\ applyCode (fac_code f) (fac_injected f) c = Throws e).
Proof.
  intros Hthrow.
  pose proof (getProxy_outcome n p c s) as Ho. rewrite Hthrow in Ho.
  assert (forall f s0,
            ApplyOutcome f c s0 (Throws e) (getProxy n p c s).2 ->
            proxiesCache s0 !! p = Some f ->
            exists g, proxiesCache (getProxy n p c s).2 !! p = Some g
                      /\ applyCode (fac_code g) (fac_injected g) c = Throws e)
    as Happly.
  { intros f s0 Ha Hf. exists f.
    destruct (ApplyOutcome_advance _ _ _ _ _ Ha) as (k & ->).
    split; [exact Hf|]. inversion Ha; subst; congruence. }
  inversion Ho as [f r s1 Hc Ha | e' s1 Hc Hf | f s1 r s2 Hc Hf Ha]; subst.
  - do 6 right. by eapply Happly.
  - inversion Hf as [e' s0 Hd | d s0 r0 s1' Hd Hb]; subst.
    + inversion Hd; subst.
      * by left.
      * right; left. by eexists.
      * right; right; left. by eexists _, _.
    + destruct (DefinitionsOutcome_det _ _ _ _ _ _ Hd
                  (getDefinitions_outcome p s)) as [E _].
      inversion Hb; subst.
      * do 3 right; left. exists d. by rewrite <- E.
      * do 4 right; left. by eexists.
      * do 5 right; left. by eexists.
  - do 6 right. eapply Happly; [exact Ha|]. simpl. apply lookup_insert_eq.
Qed.

(** X6.  Whatever a client does, every entry of [definitionsCache] is an
    object the parser returned when it was run on behalf of that very
    path: the run is in the trace with the object's address, and the
    payload is the parser's for the file name and text it was given. *)
Theorem cached_definitions_are_parser_output disk ops p d :
  let s := client_run ops (initial disk) in
  definitionsCache s !! p = Some d ->
  exists rp src,
    EvParse p rp src (Some (def_addr d)) ∈ trace s
    /\ parseServiceDefinition rp src = Returns (def_body d).
Proof. intros s. apply (snd_parsed _ (reachable_Sound disk ops)). Qed.

(** X7.  Whatever a client does, no object sits under two keys: entries
    under different paths hold Definitions at different addresses and
    factories at different addresses, no Definitions object is a factory,
    and every cached address is below the allocation counter. *)
Theorem cached_objects_are_not_shared disk ops :
  let s := client_run ops (initial disk) in
  (forall p q d e,
     definitionsCache s !! p = Some d -> definitionsCache s !! q = Some e ->
     p <> q -> def_addr d <> def_addr e)
  /\ (forall p q f g,
        proxiesCache s !! p = Some f -> proxiesCache s !! q = Some g ->
        p <> q -> fac_addr f <> fac_addr g)
  /\ (forall p q d f,
        definitionsCache s !! p = Some d -> proxiesCache s !! q = Some f ->
        def_addr d <> fac_addr f)
  /\ (forall p d, definitionsCache s !! p = Some d ->
        def_addr d < next_addr s)
  /\ (forall p f, proxiesCache s !! p = Some f -> fac_addr f < next_addr s).
Proof.
  intros s.
  pose proof (reachable_Sound disk ops) as HS.
  pose proof (reachable_Inv disk ops) as HI. fold s in HS, HI.
  split; [|split; [|split; [|split]]].
  - intros p q d e Hd He Hne Heq. apply Hne.
    exact (snd_defs_unique _ HS p q d e Hd He Heq).
  - intros p q f g Hf Hg Hne Heq. apply Hne.
    exact (snd_fac_unique _ HS p q f g Hf Hg Heq).
  - exact (snd_disjoint _ HS).
  - exact (inv_defs_addr _ HI).
  - exact (inv_fac_addr _ HI).
Qed.

(** X8.  Whatever a client does, every cached factory belongs to a path
    whose definitions are cached too; its code is what the generator made
    from those definitions with [preserveFunctionNames] false, the loader
    accepted that code under the path's module name, and its [inject]
    export was called exactly once, successfully, with [Rx.Observable]
    and [trackOperationTiming]. *)
Theorem cached_factory_is_loaded_and_injected_once disk ops p f :
  let s := client_run ops (initial disk) in
  proxiesCache s !! p = Some f ->
  (exists n d,
     definitionsCache s !! p = Some d
     /\ generateProxy n false (def_body d) = Returns (fac_code f))
  /\ fac_filename f = parsePathName p +:+ "Proxy.js"
  /\ compileCode (proxyModule (fac_filename f)) (fac_code f) (fac_filename f)
     = Returns tt
  /\ injectCode (fac_code f) [VObservable; VTrackOperationTiming] = Returns tt
  /\ fac_injected f = Some [VObservable; VTrackOperationTiming]
  /\ injections (fac_addr f) (trace s) = 1.
Proof.
  intros s Hf.
  pose proof (reachable_Sound disk ops) as HS.
  pose proof (reachable_Inv disk ops) as HI. fold s in HS, HI.
  destruct (inv_factory _ HI p f Hf) as (n & d & Hd & Hg & Hi & Hn).
  destruct (snd_loaded _ HS p f Hf) as [Hc Hinj].
  split; [by exists n, d|].
  split; [exact Hn|]. rewrite Hn.
  split; [exact Hc|]. split; [exact Hinj|]. split; [exact Hi|].
  exact (snd_inject_once _ HS p f Hf).
Qed.

(** X9.  No exported call evicts or replaces anything: from any store and
    for any sequence of calls and file changes, every entry of either
    cache is still there afterwards with the same object, the allocation
    counter has not gone down, and the trace has only been extended. *)
Theorem caches_only_grow ops s :
  let s' := client_run ops s in
  (forall p d, definitionsCache s !! p = Some d ->
     definitionsCache s' !! p = Some d)
  /\ (forall p f, proxiesCache s !! p = Some f ->
        proxiesCache s' !! p = Some f)
  /\ next_addr s <= next_addr s'
  /\ exists evs, trace s' = trace s ++ evs.
Proof.
  intros s'. destruct (client_run_Extends ops s) as [H1 H2 H3 H4].
  by repeat split.
Qed.

Ltac in_events H :=
  repeat match type of H with
         | _ ∈ [] => by apply elem_of_nil in H
         | _ ∈ _ :: _ => apply elem_of_cons in H as [H|H]
         end.

(** X10.  [createProxyFactory] hands the loader nothing but the code the
    generator returned for the registry's definitions of the path, under
    the path's module name and in the module [loadCodeAsModule] sets up;
    and it calls [inject] only after [_compile] of that very code has
    returned, with [Rx.Observable] and [trackOperationTiming], on the
    exports it then returns.  So the loader is not run when the generator
    throws, and [inject] is not called when the loader throws. *)
Theorem loader_runs_generated_code_only n b p s :
  let s0 := (getDefinitions p s).2 in
  let s1 := (createProxyFactory n b p s).2 in
  exists evs,
    trace s1 = trace s0 ++ evs
    /\ (forall m code fn, EvCompile m code fn ∈ evs ->
          fn = proxyFilename p /\ m = proxyModule fn
          /\ exists d, (getDefinitions p s).1 = Returns d
                       /\ generateProxy n b (def_body d) = Returns code)
    /\ (forall a args, EvInject a args ∈ evs ->
          args = [VObservable; VTrackOperationTiming]
          /\ (forall f, (createProxyFactory n b p s).1 = Returns f ->
                a = fac_addr f)
          /\ exists d code,
               (getDefinitions p s).1 = Returns d
               /\ generateProxy n b (def_body d) = Returns code
               /\ compileCode (proxyModule (proxyFilename p)) code
                    (proxyFilename p) = Returns tt
               /\ EvCompile (proxyModule (proxyFilename p)) code
                    (proxyFilename p) ∈ evs)
    /\ (forall e, (exists d, (getDefinitions p s).1 = Returns d
                             /\ generateProxy n b (def_body d) = Throws e) ->
          forall m code fn, EvCompile m code fn ∉ evs)
    /\ (forall e code,
          (exists d, (getDefinitions p s).1 = Returns d
                     /\ generateProxy n b (def_body d) = Returns code) ->
          compileCode (proxyModule (proxyFilename p)) code (proxyFilename p)
            = Throws e ->
          forall a args, EvInject a args ∉ evs).
Proof.
  intros s0 s1. subst s0 s1.
  pose proof (getDefinitions_outcome p s) as Hd.
  pose proof (build_outcome n b p s) as Hb.
  destruct (getDefinitions p s) as [[d|e] s0]; simpl in *.
  - destruct (createProxyFactory n b p s) as [r s1]; simpl in *.
    destruct Hb as [e Hg | code e Hg filename Hc | code e Hg filename Hc Hi
                   | code Hg filename Hc Hi]; simpl;
      try subst filename;
      (eexists; split; [reflexivity|]);
      (split; [intros m code' fn Hin
              | split; [intros a args Hin
                       | split; [intros e0 (d0 & [= <-] & Hg0) m code' fn Hin
                                | intros e0 code0 (d0 & [= <-] & Hg0) Hc0
                                    a args Hin]]]);
      in_events Hin; try discriminate; try congruence;
      inversion Hin; subst.
    all: try (split; [reflexivity | split; [reflexivity | by exists d]]).
    all: (split; [reflexivity|]); (split; [by intros f [= <-]|]);
      exists d, code; repeat split; auto;
      apply list_elem_of_further, list_elem_of_here.
  - rewrite Hb. simpl. exists []. split; [by rewrite app_nil_r|].
    repeat split; intros;
      try (intros Hin; by apply elem_of_nil in Hin);
      by match goal with H : _ ∈ [] |- _ => apply elem_of_nil in H end.
Qed.

End Behaviour.

(** * The code at work in the small world *)

#[local] Existing Instance Demo.world.

(** C1 at work: the file is edited between the two calls. *)
Lemma getDefinitions_memoized_witness :
  let d := Demo.parsed 0 "export function f(x: number): Promise<number>" in
  let s1 := (getDefinitions "FooService.js" (initial Demo.disk)).2 in
  let s2 := client_run [FilesChange Demo.diskEdited] s1 in
  getDefinitions "FooService.js" s2 = (Returns d, s2)
  /\ parserReturns "FooService.js" (trace s2) = 1
  /\ parserCalls "FooService.js" (trace s2)
     = parserCalls "FooService.js" (trace s1).
Proof.
  apply (getDefinitions_memoized (C:=Demo.world) Demo.disk []
           [FilesChange Demo.diskEdited] "FooService.js").
  vm_compute. reflexivity.
Defined.

(** C2 at work: two connections, one factory, two proxies. *)
Lemma getProxy_shares_factory_not_proxies_witness :
  let code := "Foo:export function f(x: number): Promise<number>" in
  let px1 := Demo.bound 2 1 1 code in
  let px2 := Demo.bound 3 1 2 code in
  let s := initial Demo.disk in
  let s1 := (getProxy "Foo" "FooService.js" 1 s).2 in
  let s2 := client_run [] s1 in
  let s3 := (getProxy "Foo" "FooService.js" 2 s2).2 in
  exists f,
    proxiesCache s1 !! "FooService.js" = Some f
    /\ proxiesCache s2 !! "FooService.js" = Some f
    /\ proxy_factory px1 = fac_addr f /\ proxy_factory px2 = fac_addr f
    /\ proxy_context px1 = 1 /\ proxy_context px2 = 2
    /\ proxy_addr px1 <> proxy_addr px2
    /\ applyCode (fac_code f) (fac_injected f) 1
         = Returns (proxy_surface px1)
    /\ applyCode (fac_code f) (fac_injected f) 2
         = Returns (proxy_surface px2)
    /\ (exists evs,
          trace s1 = trace s ++ evs ++ [EvApply (fac_addr f) [VContext 1]])
    /\ trace s3 = trace s2 ++ [EvApply (fac_addr f) [VContext 2]].
Proof.
  apply (getProxy_shares_factory_not_proxies (C:=Demo.world) Demo.disk [] []
           "Foo" "Foo" "FooService.js" 1 2); vm_compute; reflexivity.
Defined.

(** C3 as stated fails: the second [createProxyFactory] for the same path
    runs generator and loader again and returns another factory, and
    neither call leaves an entry in [proxiesCache]. *)
Lemma createProxyFactory_twice_builds_twice :
  let code := "Foo:export function f(x: number): Promise<number>" in
  let r1 := createProxyFactory "Foo" false "FooService.js"
              (initial Demo.disk) in
  let r2 := createProxyFactory "Foo" false "FooService.js" r1.2 in
  r1.1 = Returns (Demo.loaded 1 code "FooServiceProxy.js")
  /\ r2.1 = Returns (Demo.loaded 2 code "FooServiceProxy.js")
  /\ proxiesCache r1.2 !! "FooService.js" = None
  /\ proxiesCache r2.2 !! "FooService.js" = None
  /\ countEvents isGenerate (trace r1.2) = 1
  /\ countEvents isGenerate (trace r2.2) = 2
  /\ countEvents isCompile (trace r1.2) = 1
  /\ countEvents isCompile (trace r2.2) = 2.
Proof. vm_compute. repeat split. Qed.

(** C3 at work: [createProxyFactory] on a fresh store, then [getProxy]. *)
Lemma createProxyFactory_builds_getProxy_caches_witness :
  let code := "Foo:export function f(x: number): Promise<number>" in
  let f := Demo.loaded 1 code "FooServiceProxy.js" in
  let s := initial Demo.disk in
  proxiesCache (getProxy "Foo" "FooService.js" 1 s).2 !! "FooService.js"
    = Some f
  /\ forall ops' n' c',
       let s2 := client_run ops' (getProxy "Foo" "FooService.js" 1 s).2 in
       trace (getProxy n' "FooService.js" c' s2).2
         = trace s2 ++ [EvApply (fac_addr f) [VContext c']].
Proof.
  intros code f s.
  apply (createProxyFactory_builds_getProxy_caches (C:=Demo.world)
           Demo.disk [] "Foo" false "FooService.js" 1 f);
    vm_compute; reflexivity.
Defined.

(** C4 as stated fails: the generator rejects the definitions, [getProxy]
    throws, and the definitions parsed on the way are in
    [definitionsCache] afterwards; the next call does not parse again. *)
Lemma getProxy_failure_keeps_definitions :
  let s := initial Demo.diskUnsupported in
  let r := getProxy "Bar" "BarService.js" 1 s in
  let r' := getProxy "Bar" "BarService.js" 1 r.2 in
  r.1 = Throws (Raised "UnsupportedTypeError")
  /\ definitionsCache s !! "BarService.js" = None
  /\ definitionsCache r.2 !! "BarService.js"
     = Some (Demo.parsed 0 "export function h(x: #): void")
  /\ definitionsCache r.2 <> definitionsCache s
  /\ r'.1 = Throws (Raised "UnsupportedTypeError")
  /\ parserCalls "BarService.js" (trace r.2) = 1
  /\ parserCalls "BarService.js" (trace r'.2) = 1.
Proof.
  intros s r r'.
  assert (definitionsCache r.2 !! "BarService.js"
          = Some (Demo.parsed 0 "export function h(x: #): void")) as H
    by (vm_compute; reflexivity).
  repeat split; try (vm_compute; reflexivity); try exact H.
  intros Heq. rewrite Heq in H. vm_compute in H. discriminate H.
Qed.

(** C4 at work: a parse failure, and a generator failure inside
    [getProxy]. *)
Lemma failures_leave_no_factory_witness :
  (let s := initial Demo.diskMalformed in
   definitionsCache (getDefinitions "FooService.js" s).2 = definitionsCache s
   /\ proxiesCache (getDefinitions "FooService.js" s).2 = proxiesCache s
   /\ definitionsCache s !! "FooService.js" = None)
  /\ (let s := initial Demo.diskUnsupported in
      proxiesCache (getProxy "Bar" "BarService.js" 1 s).2 = proxiesCache s).
Proof.
  split.
  - apply (proj1 (failures_leave_no_factory (C:=Demo.world)
                    "Foo" "FooService.js" 1 (initial Demo.diskMalformed)
                    (Raised "DefinitionParseError"))).
    vm_compute. reflexivity.
  - apply (proj2 (failures_leave_no_factory (C:=Demo.world)
                    "Bar" "BarService.js" 1 (initial Demo.diskUnsupported)
                    (Raised "UnsupportedTypeError")));
      vm_compute; reflexivity.
Defined.

(** C5 as stated fails: the application of the factory is handed the
    context and nothing else; stream builder and timing wrapper went in
    through [inject] before. *)
Lemma getProxy_applies_factory_to_context_alone :
  let tr := trace (getProxy "Foo" "FooService.js" 7 (initial Demo.disk)).2 in
  last tr = Some (EvApply 1 [VContext 7])
  /\ forallb passesInstrumentation tr = false
  /\ EvInject 1 [VObservable; VTrackOperationTiming] ∈ tr.
Proof.
  vm_compute. repeat split. do 3 apply list_elem_of_further.
  apply list_elem_of_here.
Qed.

(** C5 at work. *)
Lemma instrumentation_injected_at_creation_witness :
  let code := "Foo:export function f(x: number): Promise<number>" in
  let s := initial Demo.disk in
  exists f,
    proxiesCache (getProxy "Foo" "FooService.js" 7 s).2 !! "FooService.js"
      = Some f
    /\ proxy_factory (Demo.bound 2 1 7 code) = fac_addr f
    /\ fac_injected f = Some [VObservable; VTrackOperationTiming]
    /\ applyCode (fac_code f) (Some [VObservable; VTrackOperationTiming]) 7
       = Returns (proxy_surface (Demo.bound 2 1 7 code)).
Proof.
  intros code s.
  destruct (instrumentation_injected_at_creation (C:=Demo.world)
              Demo.disk [] "Foo" "FooService.js" 7) as (evs & _ & _ & _ & H).
  apply (H (Demo.bound 2 1 7 code)). vm_compute. reflexivity.
Defined.

(** C6 as stated fails: one service name and one payload under two paths
    are loaded under two names, and another service name under the same
    path is loaded under the same name. *)
Lemma module_name_is_made_from_the_path :
  let s := initial Demo.diskTwo in
  let a := createProxyFactory "Foo" false "a/FooService.js" s in
  let b := createProxyFactory "Foo" false "b/Other.js" s in
  let c := createProxyFactory "Bar" false "a/FooService.js" s in
  (def_body <$> returned (getDefinitions "a/FooService.js" s).1)
    = (def_body <$> returned (getDefinitions "b/Other.js" s).1)
  /\ compiledFilenames (trace a.2) = ["FooServiceProxy.js"]
  /\ compiledFilenames (trace b.2) = ["OtherProxy.js"]
  /\ compiledFilenames (trace c.2) = ["FooServiceProxy.js"].
Proof. vm_compute. repeat split. Qed.

(** C6 at work: an entry under the module's name, of all keys, changes
    nothing for a call on the path. *)
Lemma module_named_by_path_caches_keyed_by_path_witness :
  let s := initial Demo.disk in
  let t := withDefinitions "FooServiceProxy.js" (Demo.parsed 0 "export")
             (withProxy "FooServiceProxy.js"
                (Demo.loaded 0 "code" "FooServiceProxy.js") s) in
  (getDefinitions "FooService.js" s).1 = (getDefinitions "FooService.js" t).1
  /\ (createProxyFactory "Foo" false "FooService.js" s).1
     = (createProxyFactory "Foo" false "FooService.js" t).1
  /\ (getProxy "Foo" "FooService.js" 1 s).1
     = (getProxy "Foo" "FooService.js" 1 t).1.
Proof.
  intros s t.
  apply (module_named_by_path_caches_keyed_by_path (C:=Demo.world)
           "Foo" false "FooService.js" 1 s).
  split; vm_compute; reflexivity.
Defined.

(** C8 at work. *)
Lemma getProxy_never_preserves_names_witness :
  let code := "Foo:export function f(x: number): Promise<number>" in
  let s' := (getProxy "Foo" "FooService.js" 1 (initial Demo.disk)).2 in
  exists f n0 d,
    proxiesCache s' !! "FooService.js" = Some f
    /\ proxy_factory (Demo.bound 2 1 1 code) = fac_addr f
    /\ definitionsCache s' !! "FooService.js" = Some d
    /\ generateProxy n0 false (def_body d) = Returns (fac_code f).
Proof.
  intros code s'.
  apply (proj2 (getProxy_never_preserves_names (C:=Demo.world)
                  Demo.disk [] "Foo" "FooService.js" 1)
           (Demo.bound 2 1 1 code)).
  vm_compute. reflexivity.
Defined.

(** C9 at work: the second call asks for another service name and is
    served the first name's code. *)
Lemma getProxy_first_serviceName_wins_witness :
  let code := "Foo:export function f(x: number): Promise<number>" in
  let f := Demo.loaded 1 code "FooServiceProxy.js" in
  let s2 := client_run []
              (getProxy "Foo" "FooService.js" 1 (initial Demo.disk)).2 in
  (exists d,
     definitionsCache s2 !! "FooService.js" = Some d
     /\ generateProxy "Foo" false (def_body d) = Returns (fac_code f))
  /\ getProxy "Bar" "FooService.js" 2 s2 = applyFactory f 2 s2
  /\ getProxy "Bar" "FooService.js" 2 s2 = getProxy "Foo" "FooService.js" 2 s2
  /\ trace (getProxy "Bar" "FooService.js" 2 s2).2
     = trace s2 ++ [EvApply (fac_addr f) [VContext 2]]
  /\ forall px, (getProxy "Bar" "FooService.js" 2 s2).1 = Returns px ->
       proxy_factory px = fac_addr f
       /\ applyCode (fac_code f) (fac_injected f) 2
          = Returns (proxy_surface px).
Proof.
  intros code f s2.
  apply (getProxy_first_serviceName_wins (C:=Demo.world) Demo.disk [] []
           "Foo" "Bar" "FooService.js" 1 2 f); vm_compute; reflexivity.
Defined.

(** C10 at work: [./FooService.js] and [FooService.js] are one file and
    two keys. *)
Lemma distinct_paths_distinct_entries_witness :
  let px1 := Demo.bound 2 1 1
               "Foo:export function f(x: number): Promise<number>" in
  let px2 := Demo.bound 5 4 2
               "Bar:export function f(x: number): Promise<number>" in
  let s := initial Demo.disk in
  let s1 := (getProxy "Foo" "./FooService.js" 1 s).2 in
  let s2 := (getProxy "Bar" "FooService.js" 2 s1).2 in
  exists src d1 d2 f1 f2,
    files s !! "FooService.js" = Some src
    /\ definitionsCache s2 !! "./FooService.js" = Some d1
    /\ definitionsCache s2 !! "FooService.js" = Some d2
    /\ def_addr d1 <> def_addr d2
    /\ parseServiceDefinition "FooService.js" src = Returns (def_body d1)
    /\ parseServiceDefinition "FooService.js" src = Returns (def_body d2)
    /\ EvParse "./FooService.js" "FooService.js" src (Some (def_addr d1))
         ∈ trace s2
    /\ EvParse "FooService.js" "FooService.js" src (Some (def_addr d2))
         ∈ trace s2
    /\ proxiesCache s2 !! "./FooService.js" = Some f1
    /\ proxiesCache s2 !! "FooService.js" = Some f2
    /\ fac_addr f1 <> fac_addr f2
    /\ proxy_factory px1 = fac_addr f1
    /\ proxy_factory px2 = fac_addr f2.
Proof.
  intros px1 px2 s s1 s2.
  apply (distinct_paths_distinct_entries (C:=Demo.world) Demo.disk []
           "Foo" "Bar" 1 2 "./FooService.js" "FooService.js" "FooService.js"
           px1 px2); try (vm_compute; reflexivity).
  discriminate.
Defined.

(** X1 at work: the definitions are cached, then a factory is built. *)
Lemma builders_share_the_registry_witness :
  let d := Demo.parsed 0 "export function f(x: number): Promise<number>" in
  let s := (getDefinitions "FooService.js" (initial Demo.disk)).2 in
  let s1 := (createProxyFactory "Foo" false "FooService.js" s).2 in
  (getDefinitions "FooService.js" s1 = (Returns d, s1)
   /\ EvGenerate "Foo" false d ∈ trace s1)
  /\ definitionsCache s1 = definitionsCache s.
Proof.
  intros d s s1. split.
  - apply (proj1 (builders_share_the_registry (C:=Demo.world)
                    "Foo" false "FooService.js" 1 s)).
    vm_compute. reflexivity.
  - apply (proj2 (builders_share_the_registry (C:=Demo.world)
                    "Foo" false "FooService.js" 1 s) d).
    vm_compute. reflexivity.
Defined.

(** X2 at work: a path that does not resolve. *)
Lemma parser_gets_the_resolved_file_witness :
  let s := initial Demo.disk in
  getDefinitions "Missing.js" s = (Throws (Raised "Cannot find module"), s).
Proof.
  intros s.
  apply (proj1 (parser_gets_the_resolved_file (C:=Demo.world)
                  "Missing.js" s)).
  - vm_compute. reflexivity.
  - left. vm_compute. reflexivity.
Defined.

(** X3 at work: the malformed file is replaced by a well-formed one. *)
Lemma getDefinitions_retry_after_fix_witness :
  let s := initial Demo.diskMalformed in
  let s1 := setFiles Demo.disk (getDefinitions "FooService.js" s).2 in
  exists d,
    (getDefinitions "FooService.js" s1).1 = Returns d
    /\ def_body d = "export function f(x: number): Promise<number>"
    /\ definitionsCache (getDefinitions "FooService.js" s1).2
         !! "FooService.js" = Some d.
Proof.
  apply (getDefinitions_retry_after_fix (C:=Demo.world) "FooService.js"
           (initial Demo.diskMalformed) (Raised "DefinitionParseError")
           Demo.disk "FooService.js"
           "export function f(x: number): Promise<number>");
    vm_compute; reflexivity.
Defined.

(** X4 at work: the generated code fails on connection 0 and serves
    connection 1 from the factory cached by the failed call. *)
Lemma failed_application_keeps_the_factory_witness :
  let code := "Foo:export function f(x: number): Promise<number>" in
  let f := Flaky.loaded 1 code "FooServiceProxy.js" in
  let s := initial (C:=Flaky.world) Demo.disk in
  let s1 := (getProxy (C:=Flaky.world) "Foo" "FooService.js" 0 s).2 in
  (getProxy (C:=Flaky.world) "Foo" "FooService.js" 0 s).1
    = Throws (Raised "TypeError")
  /\ proxiesCache s1 !! "FooService.js" = Some f
  /\ forall n' c',
       getProxy (C:=Flaky.world) n' "FooService.js" c' s1
         = applyFactory f c' s1.
Proof.
  intros code f s s1.
  apply (failed_application_keeps_the_factory (C:=Flaky.world)
           "Foo" "FooService.js" 0 s f (Raised "TypeError"));
    vm_compute; reflexivity.
Defined.

(** X5 at work: the generator's error. *)
Lemma thrown_errors_come_from_collaborators_witness :
  let s := initial Demo.diskUnsupported in
  let e := Raised "UnsupportedTypeError" in
  resolveFilename (files s) "BarService.js" = Throws e
  \/ (exists rp, resolveFilename (files s) "BarService.js" = Returns rp
                 /\ files s !! rp = None /\ e = Raised "ENOENT")
  \/ (exists rp src, resolveFilename (files s) "BarService.js" = Returns rp
                     /\ files s !! rp = Some src
                     /\ parseServiceDefinition rp src = Throws e)
  \/ (exists d, (getDefinitions "BarService.js" s).1 = Returns d
                /\ generateProxy "Bar" false (def_body d) = Throws e)
  \/ (exists code,
        compileCode (proxyModule (proxyFilename "BarService.js")) code
          (proxyFilename "BarService.js") = Throws e)
  \/ (exists code, injectCode code injectedArgs = Throws e)
  \/ (exists f,
        proxiesCache (getProxy "Bar" "BarService.js" 1 s).2
          !! "BarService.js" = Some f
        /\ applyCode (fac_code f) (fac_injected f) 1 = Throws e).
Proof.
  intros s e.
  apply (thrown_errors_come_from_collaborators (C:=Demo.world)
           "Bar" "BarService.js" 1 s e).
  vm_compute. reflexivity.
Defined.

(** X6 at work. *)
Lemma cached_definitions_are_parser_output_witness :
  let d := Demo.parsed 0 "export function f(x: number): Promise<number>" in
  let s := client_run [@CallGetDefinitions Demo.world "./FooService.js"]
             (initial Demo.disk) in
  exists rp src,
    EvParse "./FooService.js" rp src (Some (def_addr d)) ∈ trace s
    /\ parseServiceDefinition rp src = Returns (def_body d).
Proof.
  intros d s.
  apply (cached_definitions_are_parser_output (C:=Demo.world) Demo.disk
           [@CallGetDefinitions Demo.world "./FooService.js"] "./FooService.js" d).
  vm_compute. reflexivity.
Defined.

(** X7 at work: one file under two paths. *)
Lemma cached_objects_are_not_shared_witness :
  let text := "export function f(x: number): Promise<number>" in
  def_addr (Demo.parsed 0 text) <> def_addr (Demo.parsed 3 text).
Proof.
  intros text.
  apply (proj1 (cached_objects_are_not_shared (C:=Demo.world) Demo.disk
                  [@CallGetProxy Demo.world "Foo" "./FooService.js" 1;
                   @CallGetProxy Demo.world "Bar" "FooService.js" 2])
           "./FooService.js" "FooService.js");
    try (vm_compute; reflexivity).
  discriminate.
Defined.

(** X8 at work. *)
Lemma cached_factory_is_loaded_and_injected_once_witness :
  let f := Demo.loaded 1 "Foo:export function f(x: number): Promise<number>"
             "FooServiceProxy.js" in
  let s := client_run [@CallGetProxy Demo.world "Foo" "FooService.js" 1;
                       @CallGetProxy Demo.world "Bar" "FooService.js" 2]
             (initial Demo.disk) in
  (exists n d,
     definitionsCache s !! "FooService.js" = Some d
     /\ generateProxy n false (def_body d) = Returns (fac_code f))
  /\ fac_filename f = parsePathName "FooService.js" +:+ "Proxy.js"
  /\ compileCode (proxyModule (fac_filename f)) (fac_code f) (fac_filename f)
     = Returns tt
  /\ injectCode (fac_code f) [VObservable; VTrackOperationTiming] = Returns tt
  /\ fac_injected f = Some [VObservable; VTrackOperationTiming]
  /\ injections (fac_addr f) (trace s) = 1.
Proof.
  intros f s.
  apply (cached_factory_is_loaded_and_injected_once (C:=Demo.world) Demo.disk
           [@CallGetProxy Demo.world "Foo" "FooService.js" 1;
            @CallGetProxy Demo.world "Bar" "FooService.js" 2] "FooService.js" f).
  vm_compute. reflexivity.
Defined.

(** X9 at work: the file changes and other calls follow. *)
Lemma caches_only_grow_witness :
  let d := Demo.parsed 0 "export function f(x: number): Promise<number>" in
  let s := (getDefinitions "FooService.js" (initial Demo.disk)).2 in
  definitionsCache
    (client_run [FilesChange Demo.diskEdited;
                 @CallGetProxy Demo.world "Foo" "FooService.js" 1;
                 @CallCreateProxyFactory Demo.world "Foo" true "FooService.js"] s)
    !! "FooService.js" = Some d.
Proof.
  intros d s.
  apply (proj1 (caches_only_grow (C:=Demo.world)
                  [FilesChange Demo.diskEdited;
                   @CallGetProxy Demo.world "Foo" "FooService.js" 1;
                   @CallCreateProxyFactory Demo.world "Foo" true "FooService.js"] s)).
  vm_compute. reflexivity.
Defined.

(** X10 at work: the generator throws, the loader is not run. *)
Lemma loader_runs_generated_code_only_witness :
  let s := initial Demo.diskUnsupported in
  let s0 := (getDefinitions "BarService.js" s).2 in
  let s1 := (createProxyFactory "Bar" false "BarService.js" s).2 in
  exists evs,
    trace s1 = trace s0 ++ evs
    /\ forall m code fn, EvCompile m code fn ∉ evs.
Proof.
  intros s s0 s1.
  destruct (loader_runs_generated_code_only (C:=Demo.world)
              "Bar" false "BarService.js" s) as (evs & Ht & _ & _ & Hn & _).
  exists evs. split; [exact Ht|].
  apply (Hn (Raised "UnsupportedTypeError")).
  exists (Demo.parsed 0 "export function h(x: #): void").
  split; vm_compute; reflexivity.
Defined.


